(** * CAD_GLB: the STEP-to-GLB converter (converter.py)

    A shallow embedding of [convert_step_to_glb]: the face walk over the
    tessellated shape, the vertex table keyed by rounded coordinates, the
    triangle index buffer and the progress checkpoints handed to the
    observer, together with the properties the design document states
    about them. *)

From stdpp Require Import gmap strings list sorting pretty.
From Stdlib Require Import ZArith QArith Qround Qpower Lqa SpecFloat.

Close Scope Q_scope.

(** * Binary64 arithmetic

    The percent of a processing update is computed by Python in double
    precision: [face_processed / total_faces] is the correctly rounded
    quotient of two integers, the product with [90 - 12] is rounded again
    and [int] truncates.  A finite double is modelled by the rational it
    denotes; [RN] rounds a rational to 53 significant bits, ties to even.
    The exponent range is not modelled: the values that occur lie between
    [1 / total_faces] and the face count, far from overflow and from the
    subnormal range. *)

Module Binary64.
Local Open Scope Q_scope.

Definition pow2 (e : Z) : Q := 2 ^ e.

(** [binade x] is the exponent [e] with [2^e <= x < 2^(e+1)], for [0 < x]. *)
Definition binade (x : Q) : Z :=
  let e0 := (Z.log2 (Qnum x) - Z.log2 (Zpos (Qden x)))%Z in
  if Qle_bool (pow2 e0) x then e0 else (e0 - 1)%Z.

(** Nearest integer, ties to the even one. *)
Definition round_half_even (x : Q) : Z :=
  let f := Qfloor x in
  match Qcompare (x - inject_Z f) (1 # 2) with
  | Lt => f
  | Gt => (f + 1)%Z
  | Eq => if Z.even f then f else (f + 1)%Z
  end.

(** Unit in the last place of the binade of [x]. *)
Definition ulp (x : Q) : Q := pow2 (binade x - 52).

Definition RN_pos (x : Q) : Q :=
  inject_Z (round_half_even (x / ulp x)) * ulp x.

Definition RN (x : Q) : Q :=
  match Qcompare x 0 with
  | Eq => 0
  | Gt => RN_pos x
  | Lt => - RN_pos (- x)
  end.

(** [a / b] on Python ints: the correctly rounded quotient. *)
Definition int_truediv (a b : Z) : Q := RN (inject_Z a / inject_Z b).

(** [x * y] on floats. *)
Definition float_mul (x y : Q) : Q := RN (x * y).

(** [int(x)]: truncation towards zero. *)
Definition py_int (x : Q) : Z :=
  if Qle_bool 0 x then Qfloor x else Qceiling x.

(** [math.ceil(x)]. *)
Definition math_ceil (x : Q) : Z := Qceiling x.

End Binary64.

(** * Python values shared by the whole module *)

(** Exceptions derived from [Exception], the ones an [except Exception]
    clause catches ([KeyboardInterrupt] and [SystemExit] are not among
    them); [str] is the text of [f"{e}"]. *)
Inductive Exception :=
| TypeError (msg : string)
| RuntimeError (msg : string)
| OtherError (msg : string).

Definition str (e : Exception) : string :=
  match e with
  | TypeError m | RuntimeError m | OtherError m => m
  end.

Definition is_TypeError (e : Exception) : bool :=
  match e with TypeError _ => true | _ => false end.

(** What a [raise] carries: an exception derived from [Exception], or one
    of those derived from [BaseException] alone, which an
    [except Exception] clause does not catch. *)
Inductive BaseException :=
| Derived (e : Exception)
| KeyboardInterrupt
| SystemExit
| GeneratorExit.

Coercion Derived : Exception >-> BaseException.

(** [isinstance(b, Exception)] *)
Definition is_Exception (b : BaseException) : bool :=
  match b with Derived _ => true | _ => false end.

(** The keyword arguments of one call of the progress callback. *)
Record ProgressEvent := {
  percent : option Z;
  state : option string;
  message : option string
}.

(** [ProgressCB]: [None], or a callable.  The callable is given the events
    it has received before and the new one, and either returns or raises. *)
Definition Callable := list ProgressEvent -> ProgressEvent -> option BaseException.
Definition ProgressCB := option Callable.

(** An observer is a callable that raises, when it raises, an exception
    derived from [Exception]. *)
Definition Observer := list ProgressEvent -> ProgressEvent -> option Exception.

Definition callable_of (f : Observer) : Callable :=
  fun evs ev => Derived <$> f evs ev.

Definition progress_cb_of (cb : option Observer) : ProgressCB :=
  callable_of <$> cb.

#[warning="-uniform-inheritance"]
Coercion progress_cb_of : option >-> ProgressCB.

(** What [TopExp_Explorer.Next] does once [More()] is false lies outside
    the contract of the geometry kernel: checked builds raise
    [Standard_NoMoreObject], unchecked builds either stay exhausted or
    re-enter the shape from its first face. *)
Inductive PastEnd := PastEndRaises | PastEndStays | PastEndRewinds.

Global Instance PastEnd_eq_dec : EqDecision PastEnd.
Proof. solve_decision. Defined.

Definition DEFAULT_ROUND_DECIMALS : Z := 6.
Definition IFSelect_RetDone : Z := 1.

(** [not l] on a list. *)
Definition is_empty {A} (l : list A) : bool :=
  match l with [] => true | _ :: _ => false end.

(** Result of a call that may raise. *)
Definition result (A : Type) : Type := Exception + A.

Definition rbind {A B} (r : result A) (k : A -> result B) : result B :=
  match r with
  | inl e => inl e
  | inr a => k a
  end.

Fixpoint rfold {A S} (f : S -> A -> result S) (l : list A) (s : S) : result S :=
  match l with
  | [] => inr s
  | a :: l' => rbind (f s a) (rfold f l')
  end.

(** A Python float with the built-in [round(x, ndigits)] on it.  The
    values other than NaN are taken up to [==]; [isnan] tells the NaNs,
    which [==] nothing, themselves included. *)
Class PyFloat := {
  float : Type;
  float_eq_dec :: EqDecision float;
  float_countable :: Countable float;
  round : float -> Z -> float;
  isnan : float -> bool
}.

Section Converter.

Context `{PyFloat}.
Variable round_decimals : Z.

(** ** The tessellated shape, as the geometry kernel hands it over *)

Record gp_Pnt := { Pnt_X : float; Pnt_Y : float; Pnt_Z : float }.

(** A transformation is modelled by what [p.Transformed(trsf)] does on
    each point: [None] when the call raises. *)
Definition gp_Trsf := gp_Pnt -> option gp_Pnt.
Definition Transformed (p : gp_Pnt) (trsf : gp_Trsf) : option gp_Pnt := trsf p.

(** Nodes are numbered from 1; a triangle holds three node numbers. *)
Record Poly_Triangulation := {
  Nodes : list gp_Pnt;
  Triangles : list (nat * nat * nat)
}.

Definition NbNodes (t : Poly_Triangulation) : nat := length (Nodes t).

Definition Node (t : Poly_Triangulation) (i : nat) : result gp_Pnt :=
  match i with
  | O => inl (RuntimeError "Standard_OutOfRange")
  | S j =>
      match Nodes t !! j with
      | Some p => inr p
      | None => inl (RuntimeError "Standard_OutOfRange")
      end
  end.

(** [BRep_Tool.Triangulation(face, loc)] returns the triangulation (or
    [None]) and fills [loc]. *)
Record TopoDS_Face := {
  Triangulation : option Poly_Triangulation;
  Location : gp_Trsf
}.

(** [TopExp_Explorer(shape, TopAbs_FACE)]: the faces of the shape in the
    kernel's order and the ones still ahead of the cursor. *)
Record TopExp_Explorer := {
  exp_shape : list TopoDS_Face;
  exp_rest : list TopoDS_Face
}.

Definition Explorer_init (shape : list TopoDS_Face) : TopExp_Explorer :=
  {| exp_shape := shape; exp_rest := shape |}.

Definition More (e : TopExp_Explorer) : bool :=
  match exp_rest e with [] => false | _ :: _ => true end.

Definition Current (e : TopExp_Explorer) : option TopoDS_Face := head (exp_rest e).

Definition Next (pe : PastEnd) (e : TopExp_Explorer) : result TopExp_Explorer :=
  match exp_rest e with
  | _ :: r => inr {| exp_shape := exp_shape e; exp_rest := r |}
  | [] =>
      match pe with
      | PastEndRaises => inl (RuntimeError "Standard_NoMoreObject")
      | PastEndStays => inr e
      | PastEndRewinds => inr (Explorer_init (exp_shape e))
      end
  end.

(** ** The containers and counters of one conversion *)

Definition SpatialKey : Type := float * float * float.

Record Locals := {
  vertices : list (list float);
  faces : list (list nat);
  vertex_map : gmap SpatialKey nat;
  face_processed : Z;
  tri_count : Z
}.

Definition initial_locals : Locals :=
  {| vertices := []; faces := []; vertex_map := ∅;
     face_processed := 0; tri_count := 0 |}.

(** [(round(float(p.X()), round_decimals), round(...Y...), round(...Z...))] *)
Definition coord_of (p_t : gp_Pnt) : SpatialKey :=
  (round (Pnt_X p_t) round_decimals,
   round (Pnt_Y p_t) round_decimals,
   round (Pnt_Z p_t) round_decimals).

(** [[float(coord[0]), float(coord[1]), float(coord[2])]] *)
Definition vertex_of (coord : SpatialKey) : list float :=
  [coord.1.1; coord.1.2; coord.2].

(** A key with a NaN coordinate is a tuple of fresh float objects that
    equals no key of the dict, not even one built from the same point:
    neither [coord in vertex_map] nor [vertex_map.get(coord)] finds it. *)
Definition has_nan (coord : SpatialKey) : bool :=
  isnan coord.1.1 || isnan coord.1.2 || isnan coord.2.

(** [vertex_map.get(coord)]; [coord in vertex_map] is whether it gives
    an index.  The map keeps the last index stored under a NaN key, which
    no lookup will return. *)
Definition get (vertex_map : gmap SpatialKey nat) (coord : SpatialKey) : option nat :=
  if has_nan coord then None else vertex_map !! coord.

(** [idx = len(vertices); vertex_map[coord] = idx; vertices.append(...)] *)
Definition append_vertex (st : Locals) (coord : SpatialKey) : Locals :=
  {| vertices := vertices st ++ [vertex_of coord];
     faces := faces st;
     vertex_map := <[coord := length (vertices st)]> (vertex_map st);
     face_processed := face_processed st;
     tri_count := tri_count st |}.

(** One turn of the node loop (lines 131-146). *)
Definition insert_node (trsf : gp_Trsf) (st : Locals) (p : gp_Pnt) : Locals :=
  let p_t := match Transformed p trsf with Some q => q | None => p end in
  let coord := coord_of p_t in
  match get (vertex_map st) coord with
  | Some _ => st
  | None => append_vertex st coord
  end.

(** The index of a corner whose lookup gave [i]: inserted when missing. *)
Definition resolve (i : option nat) (c : SpatialKey) (st : Locals) : nat * Locals :=
  match i with
  | Some i => (i, st)
  | None => (length (vertices st), append_vertex st c)
  end.

(** The rounded corners of a triangle (lines 150-169): the three
    transformations share one [try], so one failure leaves all three
    corners untransformed. *)
Definition corner_keys (t : Poly_Triangulation) (trsf : gp_Trsf)
    (tri : nat * nat * nat) : result (SpatialKey * SpatialKey * SpatialKey) :=
  rbind (Node t tri.1.1) (fun a =>
  rbind (Node t tri.1.2) (fun b =>
  rbind (Node t tri.2) (fun c =>
  let '(a_t, b_t, c_t) :=
    match Transformed a trsf, Transformed b trsf, Transformed c trsf with
    | Some a', Some b', Some c' => (a', b', c')
    | _, _, _ => (a, b, c)
    end in
  inr (coord_of a_t, coord_of b_t, coord_of c_t)))).

(** [faces.append([ia, ib, ic]); tri_count += 1] *)
Definition append_face (st : Locals) (ia ib ic : nat) : Locals :=
  {| vertices := vertices st;
     faces := faces st ++ [[ia; ib; ic]];
     vertex_map := vertex_map st;
     face_processed := face_processed st;
     tri_count := tri_count st + 1 |}.

(** Lines 171-184: the three lookups come first, the insertions of the
    missing corners after them. *)
Definition emit_triangle (st : Locals)
    (keys : SpatialKey * SpatialKey * SpatialKey) : Locals :=
  let '(ca, cb, cc) := keys in
  let ia := get (vertex_map st) ca in
  let ib := get (vertex_map st) cb in
  let ic := get (vertex_map st) cc in
  let '(ia, st) := resolve ia ca st in
  let '(ib, st) := resolve ib cb st in
  let '(ic, st) := resolve ic cc st in
  append_face st ia ib ic.

(** One turn of the triangle loop (lines 149-184). *)
Definition add_triangle (t : Poly_Triangulation) (trsf : gp_Trsf)
    (st : Locals) (tri : nat * nat * nat) : result Locals :=
  rbind (corner_keys t trsf tri) (fun keys => inr (emit_triangle st keys)).

(** The body of the face loop for a face that has a triangulation
    (lines 126-184). *)
Definition process_triangulation (t : Poly_Triangulation) (trsf : gp_Trsf)
    (st : Locals) : result Locals :=
  rfold (add_triangle t trsf) (Triangles t)
        (fold_left (insert_node trsf) (Nodes t) st).

(** ** Effects: the observer, the output file, exceptions *)

(** What a conversion leaves behind: the calls the observer received, in
    order, and the mesh written to [dst]. *)
Record World := {
  events : list ProgressEvent;
  written : option (list (list float) * list (list nat))
}.

Inductive outcome (A : Type) :=
| Return (a : A)
| Raise (e : BaseException)
| OutOfFuel.
Global Arguments Return {A} a.
Global Arguments Raise {A} e.
Global Arguments OutOfFuel {A}.

Definition M (A : Type) : Type := World -> outcome A * World.

Definition ret {A} (a : A) : M A := fun w => (Return a, w).

Definition bind {A B} (m : M A) (k : A -> M B) : M B := fun w =>
  match m w with
  | (Return a, w') => k a w'
  | (Raise e, w') => (Raise e, w')
  | (OutOfFuel, w') => (OutOfFuel, w')
  end.

Definition lift {A} (r : result A) : M A := fun w =>
  match r with
  | inl e => (Raise e, w)
  | inr a => (Return a, w)
  end.

Global Instance M_ret : MRet M := @ret.
Global Instance M_bind : MBind M := fun A B k m => bind m k.

(** A call that returns nothing and may raise. *)
Definition call (r : option Exception) : M unit := fun w =>
  match r with
  | Some e => (Raise e, w)
  | None => (Return tt, w)
  end.

(** [try: m  except Exception as e: h e]; what is not derived from
    [Exception] passes through. *)
Definition try_except {A} (m : M A) (h : Exception -> M A) : M A := fun w =>
  match m w with
  | (Raise (Derived e), w') => h e w'
  | r => r
  end.

(** [cb(percent=..., state=..., message=...)] *)
Definition call_observer (f : Callable) (ev : ProgressEvent) : M unit := fun w =>
  let w' := {| events := events w ++ [ev]; written := written w |} in
  match f (events w) ev with
  | Some e => (Raise e, w')
  | None => (Return tt, w')
  end.

Definition _safe_call_progress (cb : ProgressCB) (percent : option Z)
    (state message : option string) : M unit :=
  match cb with
  | Some f =>
      try_except
        (call_observer f {| percent := percent; state := state; message := message |})
        (fun _ => ret tt)
  | None => ret tt
  end.


(** ** The collaborators of one run *)

(** Everything the conversion gets from outside: the file system, the
    imports, the STEP reader, the mesher, the explorer and the exporter
    (numpy, trimesh and [dst.write_bytes]).  [src_exists] is the answer of
    [src.exists()] at line 45; the lines 42 to 45 come before every [try],
    and [Env] describes the runs in which they return. *)
Record Env := {
  src : string;
  src_exists : bool;
  import_error : option Exception;
  ReadFile : result Z;
  TransferRoots : option Exception;
  BRepMesh_IncrementalMesh : option Exception;
  BRepMesh_IncrementalMesh_fallback : option Exception;
  shape : list TopoDS_Face;
  past_end : PastEnd;
  export_glb : list (list float) -> list (list nat) -> option Exception;
  format_exc : Exception -> string
}.

(** [dst.write_bytes(mesh.export(file_type='glb'))] and what precedes it. *)
Definition export (env : Env) (st : Locals) : M unit := fun w =>
  match export_glb env (vertices st) (faces st) with
  | Some e => (Raise e, w)
  | None =>
      (Return tt,
       {| events := events w; written := Some (vertices st, faces st) |})
  end.

(** ** Progress arithmetic *)

(** [max(1, math.ceil(total_faces / 100))] *)
Definition update_every (total_faces : Z) : Z :=
  Z.max 1 (Binary64.math_ceil (Binary64.int_truediv total_faces 100)).

(** [12 + int((face_processed / total_faces) * (90 - 12))] *)
Definition pct (face_processed total_faces : Z) : Z :=
  12 + Binary64.py_int
         (Binary64.float_mul (Binary64.int_truediv face_processed total_faces)
                             (inject_Z (90 - 12))).

Definition processing_message (face_processed total_faces : Z) : string :=
  "Processed " +:+ pretty face_processed +:+ "/" +:+ pretty total_faces +:+ " faces".

(** The world after a checkpoint: the event reaches the observer, if
    there is one. *)
Definition record_event (cb : ProgressCB) (ev : ProgressEvent) (w : World) : World :=
  match cb with
  | Some _ => {| events := events w ++ [ev]; written := written w |}
  | None => w
  end.

(** The update of line 190. *)
Definition processing_event (face_processed total_faces : Z) : ProgressEvent :=
  {| percent := Some (pct face_processed total_faces);
     state := Some "processing";
     message := Some (processing_message face_processed total_faces) |}.

(** The test of line 187. *)
Definition update_due (face_processed total_faces : Z) : bool :=
  ((face_processed `mod` update_every total_faces =? 0)
   || (face_processed =? total_faces))%Z.

(** The same two computations with the operations of the standard
    library's IEEE 754 specification ([prec = 53], [emax = 1024]), for
    comparison with [pct] and [update_every]. *)
Definition sf_of_Z (n : Z) : spec_float := binary_normalize 53 1024 n 0 false.

Definition sf_to_Q (x : spec_float) : Q :=
  match x with
  | S754_finite s m e =>
      ((if s then -1 else 1) * inject_Z (Zpos m) * Binary64.pow2 e)%Q
  | _ => 0%Q
  end.

Definition ieee_pct (face_processed total_faces : Z) : Z :=
  12 + Binary64.py_int
         (sf_to_Q (SFmul 53 1024
                     (SFdiv 53 1024 (sf_of_Z face_processed) (sf_of_Z total_faces))
                     (sf_of_Z (90 - 12)))).

Definition ieee_update_every (total_faces : Z) : Z :=
  Z.max 1 (Binary64.math_ceil
             (sf_to_Q (SFdiv 53 1024 (sf_of_Z total_faces) (sf_of_Z 100)))).

(** The pairs [(p, t)] with [1 <= p <= t <= n]. *)
Definition triangle_grid (n : nat) : list (Z * Z) :=
  t ← seq 1 n; p ← seq 1 t; [(Z.of_nat p, Z.of_nat t)].

(** ** The two walks over the faces *)

(** The counting walk (lines 95-99). *)
Fixpoint count_faces (rest : list TopoDS_Face) (total_faces : Z) : Z :=
  match rest with
  | [] => total_faces
  | _ :: rest' => count_faces rest' (total_faces + 1)
  end.

Definition set_face_processed (st : Locals) (n : Z) : Locals :=
  {| vertices := vertices st; faces := faces st; vertex_map := vertex_map st;
     face_processed := n; tri_count := tri_count st |}.

(** The processing walk (lines 112-192); [fuel] bounds the number of
    turns of the [while] loop. *)
Fixpoint face_loop (fuel : nat) (pe : PastEnd) (cb : ProgressCB)
    (total_faces : Z) (exp : TopExp_Explorer) (st : Locals) : M Locals :=
  match exp_rest exp with
  | [] => mret st
  | face :: _ =>
      match fuel with
      | O => fun w => (OutOfFuel, w)
      | S fuel' =>
          let st := set_face_processed st (face_processed st + 1) in
          match Triangulation face with
          | None =>
              (* the percent computed in this branch is never reported *)
              exp ← lift (Next pe exp);
              exp ← lift (Next pe exp);
              face_loop fuel' pe cb total_faces exp st
          | Some triangulation =>
              st ← lift (process_triangulation triangulation (Location face) st);
              (if update_due (face_processed st) total_faces
               then _safe_call_progress cb
                      (Some (pct (face_processed st) total_faces))
                      (Some "processing")
                      (Some (processing_message (face_processed st) total_faces))
               else mret tt);;
              exp ← lift (Next pe exp);
              face_loop fuel' pe cb total_faces exp st
          end
      end
  end%Z.

(** ** The conversion *)

Definition converted_message (total_faces : Z) (st : Locals) : string :=
  "Converted: faces=" +:+ pretty total_faces +:+ ", triangles="
    +:+ pretty (tri_count st) +:+ ", verts=" +:+ pretty (length (vertices st)).

(** The body of the outer [try] (lines 66-214). *)
Definition convert_body (fuel : nat) (env : Env) (progress_callback : ProgressCB)
    : M (bool * string) :=
  _safe_call_progress progress_callback
    (Some 1%Z) (Some "starting") (Some "Starting conversion");;
  status ← lift (ReadFile env);
  if negb (status =? IFSelect_RetDone)%Z then
    _safe_call_progress progress_callback (Some 0%Z) (Some "error")
      (Some ("STEP read failed (status=" +:+ pretty status +:+ ")"));;
    mret (false, "STEP read failed (status=" +:+ pretty status +:+ ")")
  else
    _safe_call_progress progress_callback
      (Some 5%Z) (Some "loaded") (Some "STEP file loaded");;
    call (TransferRoots env);;
    _safe_call_progress progress_callback
      (Some 8%Z) (Some "meshing") (Some "Starting tessellation");;
    try_except (call (BRepMesh_IncrementalMesh env))
      (fun e => if is_TypeError e
                then call (BRepMesh_IncrementalMesh_fallback env)
                else lift (inl e));;
    _safe_call_progress progress_callback
      (Some 12%Z) (Some "meshed") (Some "Tessellation complete");;
    let total_faces := count_faces (exp_rest (Explorer_init (shape env))) 0 in
    if (total_faces =? 0)%Z then
      _safe_call_progress progress_callback (Some 0%Z) (Some "error")
        (Some "No faces found in STEP");;
      mret (false, "No faces found in STEP file.")
    else
      st ← face_loop fuel (past_end env) progress_callback total_faces
             (Explorer_init (shape env)) initial_locals;
      if is_empty (vertices st) || is_empty (faces st) then
        _safe_call_progress progress_callback (Some 0%Z) (Some "error")
          (Some "No mesh extracted from STEP file.");;
        mret (false, "No mesh extracted from STEP file.")
      else
        _safe_call_progress progress_callback
          (Some 90%Z) (Some "exporting") (Some "Preparing to export GLB");;
        export env st;;
        _safe_call_progress progress_callback (Some 100%Z) (Some "finished")
          (Some (converted_message total_faces st));;
        mret (true, converted_message total_faces st).

Definition convert_step_to_glb (fuel : nat) (env : Env)
    (progress_callback : ProgressCB) : M (bool * string) :=
  if negb (src_exists env) then
    _safe_call_progress progress_callback (Some 0%Z) (Some "error")
      (Some ("Input file not found: " +:+ src env));;
    mret (false, "Input file not found: " +:+ src env)
  else
    match import_error env with
    | Some e =>
        _safe_call_progress progress_callback (Some 0%Z) (Some "error")
          (Some ("Required libraries missing or failed to import: "
                   +:+ str e +:+ "."));;
        mret (false, "Required libraries missing or failed to import: "
                       +:+ str e +:+ ". Install pythonocc-core and trimesh.")
    | None =>
        try_except (convert_body fuel env progress_callback)
          (fun e =>
             _safe_call_progress progress_callback (Some 0%Z) (Some "error")
               (Some ("Conversion exception: " +:+ str e));;
             mret (false, "Conversion exception: " +:+ str e +:+ "
" +:+ format_exc env e))
    end.

Definition empty_world : World := {| events := []; written := None |}.

(** A checkpoint with all three fields present, as every call site has it. *)
Definition checkpoint (p : Z) (s m : string) : ProgressEvent :=
  {| percent := Some p; state := Some s; message := Some m |}.

(** The mesher call with its fallback for older bindings (lines 81-86). *)
Definition mesh_outcome (env : Env) : option Exception :=
  match BRepMesh_IncrementalMesh env with
  | Some e => if is_TypeError e then BRepMesh_IncrementalMesh_fallback env else Some e
  | None => None
  end.

(** The world when the face walk starts: four checkpoints have passed. *)
Definition world_before_walk (cb : ProgressCB) (w : World) : World :=
  record_event cb (checkpoint 12 "meshed" "Tessellation complete")
    (record_event cb (checkpoint 8 "meshing" "Starting tessellation")
       (record_event cb (checkpoint 5 "loaded" "STEP file loaded")
          (record_event cb (checkpoint 1 "starting" "Starting conversion") w))).

(** The processing walk as the conversion starts it. *)
Definition face_walk (fuel : nat) (env : Env) (cb : ProgressCB) (w : World)
    : outcome Locals * World :=
  face_loop fuel (past_end env) cb (count_faces (shape env) 0)
    (Explorer_init (shape env)) initial_locals (world_before_walk cb w).

End Converter.

(** * What the design document asks of the containers *)

Section Specification.

Context `{PyFloat}.

(** Every entry of the vertex table points at the vertex that holds the
    coordinates of its key. *)
Definition key_stored (st : Locals) : Prop :=
  forall (k : SpatialKey) (i : nat),
    vertex_map st !! k = Some i -> vertices st !! i = Some (vertex_of k).

(** Every vertex holds the coordinates of a key of the vertex table. *)
Definition vertex_keyed (st : Locals) : Prop :=
  forall (i : nat) (v : list float),
    vertices st !! i = Some v ->
    exists k : SpatialKey, is_Some (vertex_map st !! k) /\ v = vertex_of k.

(** Every key of the vertex table is the rounding of a point. *)
Definition keys_rounded (round_decimals : Z) (st : Locals) : Prop :=
  forall k : SpatialKey,
    is_Some (vertex_map st !! k) ->
    exists p : gp_Pnt, k = coord_of round_decimals p.

(** The three properties of the vertex table together. *)
Definition table_ok (round_decimals : Z) (st : Locals) : Prop :=
  key_stored st /\ vertex_keyed st /\ keys_rounded round_decimals st.

(** Every index of every triangle, and of the table, is below
    [len(vertices)]. *)
Definition indices_valid (st : Locals) : Prop :=
  (forall (tri : list nat) (i : nat),
      tri ∈ faces st -> i ∈ tri -> i < length (vertices st)) /\
  (forall (k : SpatialKey) (i : nat),
      vertex_map st !! k = Some i -> i < length (vertices st)).

(** The same for a finished mesh. *)
Definition mesh_valid (m : list (list float) * list (list nat)) : Prop :=
  forall (tri : list nat) (i : nat), tri ∈ m.2 -> i ∈ tri -> i < length m.1.

(** The key under which the node pass files a point. *)
Definition node_key (round_decimals : Z) (trsf : gp_Trsf) (p : gp_Pnt) : SpatialKey :=
  coord_of round_decimals
    (match Transformed p trsf with Some q => q | None => p end).

(** A transformation that raises on every point or on none. *)
Definition steady (trsf : gp_Trsf) : Prop :=
  (forall p, is_Some (Transformed p trsf)) \/ (forall p, Transformed p trsf = None).

(** No node of [t] has a NaN among the coordinates of its key. *)
Definition finite_keys (round_decimals : Z) (t : Poly_Triangulation)
    (trsf : gp_Trsf) : Prop :=
  forall p, p ∈ Nodes t -> has_nan (node_key round_decimals trsf p) = false.

(** A face on which the table can deduplicate: its transformation is
    steady and its nodes have keys without NaN. *)
Definition regular (round_decimals : Z) (face : TopoDS_Face) : Prop :=
  steady (Location face) /\
  forall t, Triangulation face = Some t ->
            finite_keys round_decimals t (Location face).

(** The triangle [ijk] holds the table's indices of the corners of [tri]. *)
Definition resolved (round_decimals : Z) (t : Poly_Triangulation) (trsf : gp_Trsf)
    (st : Locals) (tri : nat * nat * nat) (ijk : list nat) : Prop :=
  exists a b c ia ib ic,
    Node t tri.1.1 = inr a /\ Node t tri.1.2 = inr b /\ Node t tri.2 = inr c /\
    vertex_map st !! node_key round_decimals trsf a = Some ia /\
    vertex_map st !! node_key round_decimals trsf b = Some ib /\
    vertex_map st !! node_key round_decimals trsf c = Some ic /\
    ijk = [ia; ib; ic].

(** The observer that a callable amounts to as long as it raises nothing
    but exceptions derived from [Exception]. *)
Definition observer_of (g : Callable) : Observer := fun evs ev =>
  match g evs ev with
  | Some (Derived e) => Some e
  | _ => None
  end.

Definition observed (progress_callback : ProgressCB) : option Observer :=
  observer_of <$> progress_callback.

(** [m1] does what [m2] does, or lets out an exception that is not
    derived from [Exception]. *)
Definition same_or_interrupted {A} (m1 m2 : M A) : Prop :=
  forall w, m1 w = m2 w \/
            exists b w', m1 w = (Raise b, w') /\ is_Exception b = false.

(** The stages before the enumeration of the faces all succeed. *)
Definition reaches_walk (env : Env) : Prop :=
  src_exists env = true /\ import_error env = None /\
  ReadFile env = inr IFSelect_RetDone /\ TransferRoots env = None /\
  mesh_outcome env = None.

(** The walk steps past the last face: a face without triangulation is
    visited when no face follows it. *)
Fixpoint runs_off (rest : list TopoDS_Face) : bool :=
  match rest with
  | [] => false
  | face :: r =>
      match Triangulation face with
      | Some _ => runs_off r
      | None =>
          match r with
          | [] => true
          | _ :: r' => runs_off r'
          end
      end
  end.

(** The counter of triangles is the length of the triangle list. *)
Definition tri_count_ok (st : Locals) : Prop :=
  tri_count st = Z.of_nat (length (faces st)).

(** The two lists of [st] begin the two lists of [st']. *)
Definition grown_from (st st' : Locals) : Prop :=
  vertices st `prefix_of` vertices st' /\ faces st `prefix_of` faces st'.

(** The same run with the preferred mesher call replaced by what the
    fallback call does. *)
Definition with_fallback_mesher (env : Env) : Env :=
  {| src := src env; src_exists := src_exists env;
     import_error := import_error env; ReadFile := ReadFile env;
     TransferRoots := TransferRoots env;
     BRepMesh_IncrementalMesh := BRepMesh_IncrementalMesh_fallback env;
     BRepMesh_IncrementalMesh_fallback := BRepMesh_IncrementalMesh_fallback env;
     shape := shape env; past_end := past_end env;
     export_glb := export_glb env; format_exc := format_exc env |}.





(** The faces the processing walk stops at: the face that follows one
    without triangulation is stepped over. *)
Fixpoint visited (rest : list TopoDS_Face) : list TopoDS_Face :=
  match rest with
  | [] => []
  | face :: r =>
      face :: match Triangulation face with
              | Some _ => visited r
              | None =>
                  match r with
                  | [] => []
                  | _ :: r' => visited r'
                  end
              end
  end.

(** What one turn of the walk does to the containers (lines 113-184). *)
Definition process_face (round_decimals : Z) (st : Locals) (face : TopoDS_Face)
    : result Locals :=
  let st := set_face_processed st (face_processed st + 1) in
  match Triangulation face with
  | Some t => process_triangulation round_decimals t (Location face) st
  | None => inr st
  end.

Definition process_faces (round_decimals : Z) (fs : list TopoDS_Face) (st : Locals)
    : result Locals :=
  rfold (process_face round_decimals) fs st.

End Specification.

(** ** What the design document asks of the checkpoints *)

Definition is_error (ev : ProgressEvent) : bool :=
  match state ev with
  | Some s => String.eqb s "error"
  | None => false
  end.

(** The percent values of a run, absent ones left out. *)
Definition reported_percents (evs : list ProgressEvent) : list Z :=
  omap percent evs.

Definition without_errors (evs : list ProgressEvent) : list ProgressEvent :=
  List.filter (fun ev => negb (is_error ev)) evs.

(** A run of checkpoints as the code produces it: the percents other
    than those of error checkpoints never decrease, the first percent is
    at most 1, a success ends with [(100, finished)], a failure ends with
    a checkpoint [(0, error)] that is the only error checkpoint, and no
    exception leaves the conversion. *)
Definition orderly_run (r : outcome (bool * string)) (evs : list ProgressEvent) : Prop :=
  StronglySorted Z.le (reported_percents (without_errors evs)) /\
  (forall ev, head evs = Some ev -> exists p, percent ev = Some p /\ (p <= 1)%Z) /\
  (forall msg, r = Return (true, msg) ->
               last evs = Some (checkpoint 100 "finished" msg)) /\
  (forall msg, r = Return (false, msg) ->
               exists evs' m, evs = evs' ++ [checkpoint 0 "error" m] /\
                              without_errors evs' = evs') /\
  (forall e, r <> Raise e).

(** The percent formula of the design document, over the rationals. *)
Definition spec_pct (processed_faces total_faces : Z) : Z :=
  12 + Qfloor (inject_Z processed_faces / inject_Z total_faces * inject_Z 78).

(** Every processing update carries the percent of the design document. *)
Definition reports_spec_pct (total_faces : Z) (evs : list ProgressEvent) : Prop :=
  forall (processed_faces p : Z),
    checkpoint p "processing" (processing_message processed_faces total_faces) ∈ evs ->
    p = spec_pct processed_faces total_faces.

(** * Concrete shapes

    Coordinates that are whole numbers are fixed points of
    [round(x, ndigits)] for [ndigits >= 0]; the shapes below use only
    such coordinates, written as integers. *)

Module Shapes.

#[export] Instance whole_floats : PyFloat :=
  {| float := Z; round := fun x _ => x; isnan := fun _ => false |}.

(** The same with a NaN, written [None], which [round] leaves alone. *)
Definition nan_floats : PyFloat :=
  {| float := option Z; round := fun x _ => x;
     isnan := fun x => bool_decide (x = None) |}.

(** Three nodes, the first with a NaN abscissa, and two triangles. *)
Definition nan_triangulation : @Poly_Triangulation nan_floats :=
  {| Nodes := [@Build_gp_Pnt nan_floats None (Some 0) (Some 0);
               @Build_gp_Pnt nan_floats (Some 1) (Some 0) (Some 0);
               @Build_gp_Pnt nan_floats (Some 1) (Some 1) (Some 0)]%Z;
     Triangles := [(1, 2, 3); (1, 3, 2)] |}.

Definition pnt (x y z : Z) : gp_Pnt :=
  {| Pnt_X := x; Pnt_Y := y; Pnt_Z := z |}.

Definition identity : gp_Trsf := fun p => Some p.

(** A unit square split along its diagonal. *)
Definition square : Poly_Triangulation :=
  {| Nodes := [pnt 0 0 0; pnt 1 0 0; pnt 1 1 0; pnt 0 1 0];
     Triangles := [(1, 2, 3); (1, 3, 4)] |}.

Definition square_face : TopoDS_Face :=
  {| Triangulation := Some square; Location := identity |}.

(** A face the mesher left without a triangulation. *)
Definition bare_face : TopoDS_Face :=
  {| Triangulation := None; Location := identity |}.

(** A run in which every collaborator succeeds, over the given faces. *)
Definition env_of (pe : PastEnd) (fs : list TopoDS_Face) : Env :=
  {| src := "part.step";
     src_exists := true;
     import_error := None;
     ReadFile := inr IFSelect_RetDone;
     TransferRoots := None;
     BRepMesh_IncrementalMesh := None;
     BRepMesh_IncrementalMesh_fallback := None;
     shape := fs;
     past_end := pe;
     export_glb := fun _ _ => None;
     format_exc := fun _ => "Traceback (most recent call last):" |}.

(** A triangulation that has nodes and no triangle. *)
Definition loose_nodes : Poly_Triangulation :=
  {| Nodes := [pnt 0 0 0; pnt 1 0 0; pnt 1 1 0]; Triangles := [] |}.

Definition loose_face : TopoDS_Face :=
  {| Triangulation := Some loose_nodes; Location := identity |}.

(** A location whose transformation moves the points with [x = 0] and
    raises on every other point. *)
Definition partial_move : gp_Trsf := fun p =>
  if (Pnt_X p =? 0)%Z then Some (pnt 5 (Pnt_Y p) (Pnt_Z p)) else None.

(** Two nodes and a triangle that uses the first one twice. *)
Definition sliver : Poly_Triangulation :=
  {| Nodes := [pnt 0 0 0; pnt 1 0 0]; Triangles := [(1, 1, 2)] |}.

Definition sliver_face : TopoDS_Face :=
  {| Triangulation := Some sliver; Location := partial_move |}.

Definition every_past_end (P : PastEnd -> Prop) : Prop :=
  P PastEndRaises /\ P PastEndStays /\ P PastEndRewinds.

Definition quiet : Observer := fun _ _ => None.
Definition noisy : Observer := fun _ _ => Some (OtherError "observer failed").

(** A callable that the user interrupts at its first call. *)
Definition interrupted : Callable := fun _ _ => Some KeyboardInterrupt.

Definition run (fuel : nat) (env : Env) (cb : ProgressCB) :=
  convert_step_to_glb DEFAULT_ROUND_DECIMALS fuel env cb empty_world.

End Shapes.


(** * The web front end (app.py) *)

Module App.

(** A Python string as the list of its code points. *)
Definition pystr : Type := list N.

Section SafeFilename.

(** [c.isalnum()] on a character, as the Unicode database has it. *)
Variable isalnum : N -> bool.

(** [c in "._-"] *)
Definition in_dot_underscore_dash (c : N) : bool :=
  ((c =? 46) || (c =? 95) || (c =? 45))%N.

Definition kept (c : N) : bool := isalnum c || in_dot_underscore_dash c.

(** [s.lstrip("_")], [s.rstrip("_")] and [s.strip("_")] *)
Fixpoint lstrip_underscores (s : pystr) : pystr :=
  match s with
  | [] => []
  | c :: s' => if (c =? 95)%N then lstrip_underscores s' else s
  end.

Definition rstrip_underscores (s : pystr) : pystr :=
  reverse (lstrip_underscores (reverse s)).

Definition strip_underscores (s : pystr) : pystr :=
  rstrip_underscores (lstrip_underscores s).

(** ["".join(c for c in name if c.isalnum() or c in "._-").strip("_")] *)
Definition safe_filename (name : pystr) : pystr :=
  strip_underscores (List.filter kept name).

End SafeFilename.

Definition ALLOWED : list string :=
  [".step"; ".stp"; ".stl"; ".obj"; ".ply"; ".off"; ".gltf"; ".glb"; ".dae"].
Definition MESH_EXTS : list string :=
  [".stl"; ".obj"; ".ply"; ".off"; ".gltf"; ".glb"; ".dae"].
Definition CAD_EXTS : list string := [".step"; ".stp"].

(** What a handler answers: an [HTTPException] it raises, or the JSON
    body of [upload]. *)
Inductive Response :=
| HTTPException (status_code : Z) (detail : string)
| JSONResponse (viewer_url download_url message : string).

(** [upload], lines 141-169.  [suffix] is
    [Path(file.filename).suffix.lower()], [uid] is [uuid.uuid4().hex],
    [converter_import] is what importing the converter module does, and
    [env] holds the collaborators of the conversion of the saved upload.
    The converter is called with its default parameters and without an
    observer. *)
Definition upload `{PyFloat} (suffix uid : string)
    (converter_import : option Exception) (fuel : nat) (env : Env) : M Response :=
  if negb (bool_decide (suffix ∈ ALLOWED)) then
    mret (HTTPException 400
            ("Extension " +:+ suffix +:+ " not allowed. Only .step/.stp"))
  else
    let out_name := uid +:+ ".glb" in
    match converter_import with
    | Some e =>
        mret (HTTPException 500 ("Converter module import failed: " +:+ str e))
    | None =>
        r ← convert_step_to_glb DEFAULT_ROUND_DECIMALS fuel env None;
        let '(success, message) := r in
        if negb success then mret (HTTPException 500 message)
        else mret (JSONResponse ("/view/" +:+ out_name)
                     ("/outputs/" +:+ out_name) message)
    end.

End App.

(** * Properties of binary64 rounding *)

Module Binary64Facts.
Import Binary64.
Local Open Scope Q_scope.

Lemma pow2_pos e : 0 < pow2 e.
Proof. apply Qpower_0_lt. reflexivity. Qed.

Lemma pow2_add a b : pow2 (a + b) == pow2 a * pow2 b.
Proof. unfold pow2. apply Qpower_plus. discriminate. Qed.

Lemma pow2_le a b : (a <= b)%Z -> pow2 a <= pow2 b.
Proof. intros. apply Qpower_le_compat_l; [done|]. discriminate. Qed.

Lemma pow2_lt a b : (a < b)%Z -> pow2 a < pow2 b.
Proof. intros. apply Qpower_lt_compat_l; [done|]. reflexivity. Qed.

Lemma pow2_lt_inv a b : pow2 a < pow2 b -> (a < b)%Z.
Proof. intros. eapply Qpower_lt_compat_l_inv; [done|]. reflexivity. Qed.

Lemma pow2_succ a : pow2 (a + 1) == 2 * pow2 a.
Proof. rewrite pow2_add. unfold pow2 at 2. simpl. ring. Qed.

Lemma pow2_inject (a : Z) : (0 <= a)%Z -> inject_Z (2 ^ a) == pow2 a.
Proof. intros. unfold pow2. by rewrite Zpower_Qpower. Qed.

Lemma binade_spec x : 0 < x -> pow2 (binade x) <= x /\ x < pow2 (binade x + 1).
Proof.
  intros Hx. destruct x as [n d]. 
  assert (Hn : (0 < n)%Z).
  { unfold Qlt in Hx. simpl in Hx. lia. }
  pose proof (Z.log2_spec n Hn) as [Ha1 Ha2].
  pose proof (Z.log2_spec (Zpos d) (Pos2Z.is_pos d)) as [Hb1 Hb2].
  pose proof (Z.log2_nonneg n) as Ha0.
  pose proof (Z.log2_nonneg (Zpos d)) as Hb0.
  set (a := Z.log2 n) in *. set (b := Z.log2 (Zpos d)) in *.
  assert (Hlo : pow2 (a - b - 1) < n # d).
  { rewrite Qmake_Qdiv. apply Qlt_shift_div_l; [reflexivity|].
    apply Qlt_le_trans with (pow2 (a - b - 1) * pow2 (b + 1)).
    - apply Qmult_lt_l; [apply pow2_pos|].
      rewrite <- pow2_inject by lia. rewrite <- Zlt_Qlt.
      replace (Z.succ b) with (b + 1)%Z in Hb2 by lia. done.
    - rewrite <- pow2_add. replace (a - b - 1 + (b + 1))%Z with a by lia.
      rewrite <- pow2_inject by lia. by rewrite <- Zle_Qle. }
  assert (Hhi : n # d < pow2 (a - b + 1)).
  { rewrite Qmake_Qdiv. apply Qlt_shift_div_r; [reflexivity|].
    apply Qlt_le_trans with (pow2 (a + 1)).
    - rewrite <- pow2_inject by lia. rewrite <- Zlt_Qlt.
      replace (Z.succ a) with (a + 1)%Z in Ha2 by lia. done.
    - replace (a + 1)%Z with (a - b + 1 + b)%Z by lia. rewrite pow2_add.
      apply Qmult_le_l; [apply pow2_pos|].
      rewrite <- pow2_inject by lia. by rewrite <- Zle_Qle. }
  unfold binade. cbn [Qnum Qden]. fold a b.
  destruct (Qle_bool (pow2 (a - b)) (n # d)) eqn:E.
  - apply Qle_bool_iff in E. split; [done|]. done.
  - assert (Hlt : n # d < pow2 (a - b)).
    { apply Qnot_le_lt. intros Hle. apply Qle_bool_iff in Hle. congruence. }
    split.
    + by apply Qlt_le_weak.
    + by replace (a - b - 1 + 1)%Z with (a - b)%Z by lia.
Qed.

Lemma binade_unique x e :
  pow2 e <= x -> x < pow2 (e + 1) -> binade x = e.
Proof.
  intros H1 H2.
  assert (Hx : 0 < x) by (eapply Qlt_le_trans; [apply pow2_pos|done]).
  destruct (binade_spec x Hx) as [H3 H4].
  assert (e < binade x + 1)%Z.
  { apply pow2_lt_inv. eapply Qle_lt_trans; done. }
  assert (binade x < e + 1)%Z.
  { apply pow2_lt_inv. eapply Qle_lt_trans; done. }
  lia.
Qed.

Lemma binade_proper x y : 0 < x -> x == y -> binade x = binade y.
Proof.
  intros Hx Hxy. symmetry.
  apply binade_unique; rewrite <- Hxy; by apply binade_spec.
Qed.

Lemma binade_mono x y : 0 < x -> x <= y -> (binade x <= binade y)%Z.
Proof.
  intros Hx Hxy.
  assert (Hy : 0 < y) by by eapply Qlt_le_trans.
  destruct (binade_spec x Hx) as [H1 _]. destruct (binade_spec y Hy) as [_ H2].
  assert (binade x < binade y + 1)%Z; [|lia].
  apply pow2_lt_inv. eapply Qle_lt_trans; [|done]. by eapply Qle_trans.
Qed.

(** ** Rounding to the nearest integer *)

Lemma round_half_even_cases x :
  round_half_even x = Qfloor x \/ round_half_even x = (Qfloor x + 1)%Z.
Proof.
  unfold round_half_even. destruct (Qcompare _ _); [destruct (Z.even _)| |]; auto.
Qed.

#[export] Instance round_half_even_proper : Proper (Qeq ==> eq) round_half_even.
Proof.
  intros x y Hxy. unfold round_half_even.
  rewrite (Qfloor_comp _ _ Hxy).
  assert (Hc : Qcompare (x - inject_Z (Qfloor y)) (1 # 2) =
               Qcompare (y - inject_Z (Qfloor y)) (1 # 2)).
  { apply Qcompare_comp; [by rewrite Hxy|reflexivity]. }
  by rewrite Hc.
Qed.

Lemma round_half_even_Z (k : Z) : round_half_even (inject_Z k) = k.
Proof.
  unfold round_half_even. rewrite Qfloor_Z.
  assert (Hc : Qcompare (inject_Z k - inject_Z k) (1 # 2) = Lt).
  { apply Qlt_alt. unfold Qminus. rewrite Qplus_opp_r. reflexivity. }
  by rewrite Hc.
Qed.

Lemma round_half_even_mono x y : x <= y -> (round_half_even x <= round_half_even y)%Z.
Proof.
  intros Hxy. pose proof (Qfloor_resp_le x y Hxy) as Hf.
  destruct (Z.eq_dec (Qfloor x) (Qfloor y)) as [Heq|Hne].
  - unfold round_half_even. rewrite Heq.
    destruct (Qcompare_spec (x - inject_Z (Qfloor y)) (1 # 2)) as [Hx|Hx|Hx];
      destruct (Qcompare_spec (y - inject_Z (Qfloor y)) (1 # 2)) as [Hy|Hy|Hy];
      try destruct (Z.even _); try lia; exfalso; lra.
  - destruct (round_half_even_cases x) as [-> | ->];
      destruct (round_half_even_cases y) as [-> | ->]; lia.
Qed.

(** The rounding error is at most one half. *)
Lemma round_half_even_error x :
  x - (1 # 2) <= inject_Z (round_half_even x) /\
  inject_Z (round_half_even x) <= x + (1 # 2).
Proof.
  pose proof (Qfloor_le x) as H1. pose proof (Qlt_floor x) as H2.
  rewrite inject_Z_plus in H2.
  unfold round_half_even.
  destruct (Qcompare_spec (x - inject_Z (Qfloor x)) (1 # 2)) as [Hx|Hx|Hx];
    try destruct (Z.even _); rewrite ?inject_Z_plus;
    change (inject_Z 1) with 1 in *; split; lra.
Qed.

(** ** Rounding to 53 bits *)

Lemma ulp_pos x : 0 < ulp x.
Proof. apply pow2_pos. Qed.

Lemma pow2_52 : pow2 52 == inject_Z (2 ^ 52).
Proof. reflexivity. Qed.

(** The scaled significand lies between [2^52] and [2^53]. *)
Lemma scaled_bounds x :
  0 < x -> pow2 52 <= x / ulp x /\ x / ulp x < pow2 53.
Proof.
  intros Hx. destruct (binade_spec x Hx) as [H1 H2]. unfold ulp. split.
  - apply Qle_shift_div_l; [apply pow2_pos|].
    rewrite <- pow2_add. by replace (52 + (binade x - 52))%Z with (binade x) by lia.
  - apply Qlt_shift_div_r; [apply pow2_pos|].
    rewrite <- pow2_add. by replace (53 + (binade x - 52))%Z with (binade x + 1)%Z by lia.
Qed.

Lemma RN_pos_bounds x :
  0 < x -> pow2 (binade x) <= RN_pos x /\ RN_pos x <= pow2 (binade x + 1).
Proof.
  intros Hx. destruct (scaled_bounds x Hx) as [H1 H2]. unfold RN_pos.
  pose proof (round_half_even_mono _ _ H1) as L.
  pose proof (round_half_even_mono _ _ (Qlt_le_weak _ _ H2)) as U.
  change (pow2 52) with (inject_Z (2 ^ 52)) in L.
  change (pow2 53) with (inject_Z (2 ^ 53)) in U.
  rewrite round_half_even_Z in L, U.
  split.
  - replace (binade x) with (52 + (binade x - 52))%Z at 1 by lia.
    rewrite pow2_add. fold (ulp x).
    apply Qmult_le_compat_r; [|apply Qlt_le_weak, ulp_pos].
    change (pow2 52) with (inject_Z (2 ^ 52)). by rewrite <- Zle_Qle.
  - replace (binade x + 1)%Z with (53 + (binade x - 52))%Z by lia.
    rewrite pow2_add. fold (ulp x).
    apply Qmult_le_compat_r; [|apply Qlt_le_weak, ulp_pos].
    change (pow2 53) with (inject_Z (2 ^ 53)). by rewrite <- Zle_Qle.
Qed.

Lemma RN_pos_positive x : 0 < x -> 0 < RN_pos x.
Proof.
  intros Hx. eapply Qlt_le_trans; [apply (pow2_pos (binade x))|].
  by apply RN_pos_bounds.
Qed.

Lemma RN_pos_mono x y : 0 < x -> x <= y -> RN_pos x <= RN_pos y.
Proof.
  intros Hx Hxy.
  assert (Hy : 0 < y) by by eapply Qlt_le_trans.
  pose proof (binade_mono x y Hx Hxy) as Hb.
  destruct (Z.eq_dec (binade x) (binade y)) as [Heq|Hne].
  - unfold RN_pos, ulp. rewrite Heq.
    apply Qmult_le_compat_r; [|apply Qlt_le_weak, pow2_pos].
    rewrite <- Zle_Qle. apply round_half_even_mono.
    apply Qmult_le_compat_r; [done|].
    apply Qlt_le_weak, Qinv_lt_0_compat, pow2_pos.
  - apply Qle_trans with (pow2 (binade x + 1)); [by apply RN_pos_bounds|].
    apply Qle_trans with (pow2 (binade y)); [|by apply RN_pos_bounds].
    apply pow2_le. lia.
Qed.

Lemma RN_pos_proper x y : 0 < x -> x == y -> RN_pos x == RN_pos y.
Proof.
  intros Hx Hxy. unfold RN_pos, ulp.
  rewrite (binade_proper x y Hx Hxy).
  assert (Hs : x / pow2 (binade y - 52) == y / pow2 (binade y - 52)) by by rewrite Hxy.
  by rewrite (round_half_even_proper _ _ Hs).
Qed.

#[export] Instance RN_proper : Proper (Qeq ==> Qeq) RN.
Proof.
  intros x y Hxy. unfold RN.
  assert (Hc : Qcompare x 0 = Qcompare y 0) by (apply Qcompare_comp; [done|reflexivity]).
  rewrite <- Hc. destruct (Qcompare_spec x 0) as [H0|H0|H0].
  - reflexivity.
  - assert (H1 : 0 < - x) by lra.
    assert (H2 : - x == - y) by by rewrite Hxy.
    by rewrite (RN_pos_proper _ _ H1 H2).
  - by apply RN_pos_proper.
Qed.

Lemma RN_nonneg x : 0 <= x -> 0 <= RN x.
Proof.
  intros Hx. unfold RN. destruct (Qcompare_spec x 0) as [H0|H0|H0].
  - lra.
  - lra.
  - by apply Qlt_le_weak, RN_pos_positive.
Qed.

Lemma RN_mono x y : 0 <= x -> x <= y -> RN x <= RN y.
Proof.
  intros Hx Hxy. unfold RN at 1. destruct (Qcompare_spec x 0) as [H0|H0|H0].
  - apply RN_nonneg. lra.
  - lra.
  - unfold RN. destruct (Qcompare_spec y 0) as [H1|H1|H1]; [lra..|].
    by apply RN_pos_mono.
Qed.

Lemma RN_one : RN 1 == 1.
Proof. reflexivity. Qed.

Lemma RN_78 : RN (inject_Z 78) == inject_Z 78.
Proof. reflexivity. Qed.

Lemma py_int_nonneg x : 0 <= x -> py_int x = Qfloor x.
Proof. intros Hx. unfold py_int. apply Qle_bool_iff in Hx. by rewrite Hx. Qed.

Lemma inject_Z_pos (t : Z) : (0 < t)%Z -> 0 < inject_Z t.
Proof. intros. unfold Qlt. simpl. lia. Qed.

Lemma inject_Z_nonneg (p : Z) : (0 <= p)%Z -> 0 <= inject_Z p.
Proof. intros. unfold Qle. simpl. lia. Qed.

Lemma quotient_nonneg (p t : Z) : (0 <= p)%Z -> (0 < t)%Z -> 0 <= inject_Z p / inject_Z t.
Proof.
  intros Hp Ht. apply Qle_shift_div_l.
  - by apply inject_Z_pos.
  - rewrite Qmult_0_l. by apply inject_Z_nonneg.
Qed.

Lemma quotient_mono (p p' t : Z) :
  (p <= p')%Z -> (0 < t)%Z -> inject_Z p / inject_Z t <= inject_Z p' / inject_Z t.
Proof.
  intros Hp Ht. apply Qmult_le_compat_r; [by rewrite <- Zle_Qle|].
  apply Qlt_le_weak, Qinv_lt_0_compat. by apply inject_Z_pos.
Qed.

Lemma int_truediv_nonneg p t : (0 <= p)%Z -> (0 < t)%Z -> 0 <= int_truediv p t.
Proof. intros. apply RN_nonneg. by apply quotient_nonneg. Qed.

Lemma int_truediv_mono p p' t :
  (0 <= p)%Z -> (p <= p')%Z -> (0 < t)%Z -> int_truediv p t <= int_truediv p' t.
Proof.
  intros. apply RN_mono; [by apply quotient_nonneg|by apply quotient_mono].
Qed.

Lemma int_truediv_same t : (0 < t)%Z -> int_truediv t t == 1.
Proof.
  intros Ht. unfold int_truediv.
  assert (Hq : inject_Z t / inject_Z t == 1).
  { apply Qmult_inv_r. intros E. 
    pose proof (inject_Z_pos t Ht) as Hlt.
    rewrite E in Hlt. by apply Qlt_irrefl in Hlt. }
  rewrite Hq. apply RN_one.
Qed.

Lemma float_mul_nonneg x y : 0 <= x -> 0 <= y -> 0 <= float_mul x y.
Proof. intros. apply RN_nonneg. by apply Qmult_le_0_compat. Qed.

Lemma float_mul_mono x x' y :
  0 <= x -> x <= x' -> 0 <= y -> float_mul x y <= float_mul x' y.
Proof.
  intros. apply RN_mono; [by apply Qmult_le_0_compat|].
  by apply Qmult_le_compat_r.
Qed.

(** The relative error of one rounding is at most [2^-53]. *)
Lemma RN_error x :
  0 <= x ->
  x - x * pow2 (-53) <= RN x /\ RN x <= x + x * pow2 (-53).
Proof.
  intros Hx. unfold RN. destruct (Qcompare_spec x 0) as [H0|H0|H0].
  - rewrite H0. split; vm_compute; discriminate.
  - lra.
  - destruct (binade_spec x H0) as [Hb _].
    pose proof (round_half_even_error (x / ulp x)) as [Hr1 Hr2].
    pose proof (ulp_pos x) as Hu.
    assert (Hyu : x / ulp x * ulp x == x).
    { field. intros E. rewrite E in Hu. by apply Qlt_irrefl in Hu. }
    assert (Hux : pow2 52 * ulp x <= x).
    { unfold ulp. rewrite <- pow2_add.
      by replace (52 + (binade x - 52))%Z with (binade x) by lia. }
    change (pow2 52) with (4503599627370496 # 1) in Hux.
    change (pow2 (-53)) with (1 # 9007199254740992).
    unfold RN_pos.
    set (r := inject_Z (round_half_even (x / ulp x))) in *.
    set (y := x / ulp x) in *. set (u := ulp x) in *.
    clearbody r y u. split; nra.
Qed.

(** Two roundings move the product by less than [157 * 2^-53]. *)
Lemma scaled_quotient_error (p t : Z) :
  (0 <= p)%Z -> (p <= t)%Z -> (0 < t)%Z ->
  let e := inject_Z p / inject_Z t * inject_Z 78 in
  let b := float_mul (int_truediv p t) (inject_Z 78) in
  0 <= b /\ e - 157 * pow2 (-53) <= b /\ b <= e + 157 * pow2 (-53).
Proof.
  intros Hp Hpt Ht e b.
  pose proof (quotient_nonneg p t Hp Ht) as Hx0.
  assert (Hx1 : inject_Z p / inject_Z t <= 1).
  { apply Qle_shift_div_r; [by apply inject_Z_pos|].
    rewrite Qmult_1_l. by rewrite <- Zle_Qle. }
  pose proof (RN_error _ Hx0) as [Ha1 Ha2].
  pose proof (RN_nonneg _ Hx0) as Ha0.
  fold (int_truediv p t) in Ha0, Ha1, Ha2.
  assert (Hy0 : 0 <= int_truediv p t * inject_Z 78).
  { apply Qmult_le_0_compat; [done|]. done. }
  pose proof (RN_error _ Hy0) as [Hb1 Hb2].
  pose proof (RN_nonneg _ Hy0) as Hb0.
  fold (float_mul (int_truediv p t) (inject_Z 78)) in Hb0, Hb1, Hb2.
  fold b in Hb0, Hb1, Hb2. subst e.
  change (inject_Z 78) with (78 # 1) in *.
  change (pow2 (-53)) with (1 # 9007199254740992) in *.
  set (x := inject_Z p / inject_Z t) in *. set (a := int_truediv p t) in *.
  clearbody x a b. split; [done|]. split; nra.
Qed.

End Binary64Facts.

(** * Properties of the progress arithmetic *)

Section Percent.

Import Binary64 Binary64Facts.

(** On every pair of counts up to 64 faces the percent agrees with the
    IEEE 754 operations of the standard library, and so does the cadence
    up to 400 faces. *)
Lemma pct_agrees_with_ieee :
  forallb (fun '(p, t) => (pct p t =? ieee_pct p t)%Z) (triangle_grid 64) = true.
Proof. vm_compute. reflexivity. Qed.

Lemma update_every_agrees_with_ieee :
  forallb (fun t => (update_every (Z.of_nat t) =? ieee_update_every (Z.of_nat t))%Z)
    (seq 1 400) = true.
Proof. vm_compute. reflexivity. Qed.

Lemma pct_mono p p' t : (0 <= p)%Z -> (p <= p')%Z -> (0 < t)%Z -> (pct p t <= pct p' t)%Z.
Proof.
  intros Hp Hpp Ht. unfold pct.
  assert (H78 : (0 <= inject_Z (90 - 12))%Q) by done.
  rewrite !py_int_nonneg.
  - apply Z.add_le_mono_l, Qfloor_resp_le, float_mul_mono; [|  |done].
    + by apply int_truediv_nonneg.
    + by apply int_truediv_mono.
  - apply float_mul_nonneg; [apply int_truediv_nonneg; lia|done].
  - apply float_mul_nonneg; [by apply int_truediv_nonneg|done].
Qed.

Lemma pct_full t : (0 < t)%Z -> pct t t = 90%Z.
Proof.
  intros Ht. unfold pct, float_mul.
  assert (E : (RN (int_truediv t t * inject_Z (90 - 12)) == inject_Z 78)%Q).
  { rewrite (int_truediv_same t Ht), Qmult_1_l. apply RN_78. }
  rewrite py_int_nonneg by (rewrite E; done).
  by rewrite (Qfloor_comp _ _ E), Qfloor_Z.
Qed.

Lemma pct_lower p t : (0 <= p)%Z -> (0 < t)%Z -> (12 <= pct p t)%Z.
Proof.
  intros Hp Ht. unfold pct.
  assert (H0 : (0 <= float_mul (int_truediv p t) (inject_Z (90 - 12)))%Q).
  { apply float_mul_nonneg; [by apply int_truediv_nonneg|done]. }
  rewrite py_int_nonneg by done.
  pose proof (Qfloor_resp_le _ _ H0) as Hf.
  change (Qfloor 0) with 0%Z in Hf. lia.
Qed.

Lemma pct_upper p t : (0 <= p)%Z -> (p <= t)%Z -> (0 < t)%Z -> (pct p t <= 90)%Z.
Proof.
  intros Hp Hpt Ht. rewrite <- (pct_full t) by lia. apply pct_mono; lia.
Qed.

(** Up to [2^45] faces the computed percent is the one of the design
    document or one less. *)
Lemma pct_close p t :
  (0 <= p)%Z -> (p <= t)%Z -> (0 < t)%Z -> (t <= 2 ^ 45)%Z ->
  (spec_pct p t - 1 <= pct p t)%Z /\ (pct p t <= spec_pct p t)%Z.
Proof.
  intros Hp Hpt Ht Hbig. unfold pct, spec_pct.
  destruct (scaled_quotient_error p t Hp Hpt Ht) as (Hb0 & Hb1 & Hb2).
  cbv zeta in Hb0, Hb1, Hb2.
  change (inject_Z (90 - 12)) with (inject_Z 78).
  set (b := float_mul (int_truediv p t) (inject_Z 78)) in *.
  set (e := (inject_Z p / inject_Z t * inject_Z 78)%Q) in *.
  rewrite py_int_nonneg by done.
  pose proof (Qfloor_le e) as He1. pose proof (Qlt_floor e) as He2.
  pose proof (Qfloor_le b) as Hf1. pose proof (Qlt_floor b) as Hf2.
  rewrite inject_Z_plus in He2, Hf2.
  change (inject_Z 1) with 1%Q in He2, Hf2.
  change (pow2 (-53)) with (1 # 9007199254740992)%Q in Hb1, Hb2.
  pose proof (inject_Z_pos t Ht) as HT.
  assert (Het : (e * inject_Z t == inject_Z (78 * p))%Q).
  { subst e. rewrite inject_Z_mult. field.
    intros E. rewrite E in HT. by apply Qlt_irrefl in HT. }
  (* the next integer above [e] is at least [1/t] away *)
  assert (Hgap : (e * inject_Z t + 1 <= (inject_Z (Qfloor e) + 1) * inject_Z t)%Q).
  { assert (Hz : (78 * p < (Qfloor e + 1) * t)%Z).
    { rewrite Zlt_Qlt. rewrite <- Het, inject_Z_mult, inject_Z_plus.
      change (inject_Z 1) with 1%Q. by apply Qmult_lt_r. }
    rewrite Het. 
    assert (Hz' : (78 * p + 1 <= (Qfloor e + 1) * t)%Z) by lia.
    rewrite Zle_Qle, inject_Z_plus, !inject_Z_mult, inject_Z_plus in Hz'.
    rewrite inject_Z_mult. exact Hz'. }
  assert (HTbig : (inject_Z t <= 35184372088832 # 1)%Q).
  { change (35184372088832 # 1)%Q with (inject_Z (2 ^ 45)). by rewrite <- Zle_Qle. }
  split.
  - assert (Hlt : (inject_Z (Qfloor e) < inject_Z (Qfloor b + 2))%Q).
    { rewrite inject_Z_plus. change (inject_Z 2) with 2%Q. lra. }
    rewrite <- Zlt_Qlt in Hlt. lia.
  - assert (Hlt : (inject_Z (Qfloor b) < inject_Z (Qfloor e + 1))%Q).
    { rewrite inject_Z_plus. change (inject_Z 1) with 1%Q.
      set (T := inject_Z t) in *. set (F := inject_Z (Qfloor e)) in *.
      set (G := inject_Z (Qfloor b)) in *. clearbody T F G b e. nra. }
    rewrite <- Zlt_Qlt in Hlt. lia.
Qed.

End Percent.

(** * Properties of the containers *)

Section Containers.

Context `{PyFloat}.
Variable round_decimals : Z.

Lemma rfold_preserves {A S} (P : S -> Prop) (f : S -> A -> result S) :
  (forall s a s', P s -> f s a = inr s' -> P s') ->
  forall l s s', P s -> rfold f l s = inr s' -> P s'.
Proof.
  intros Hf l. induction l as [|a l IH]; simpl; intros s s' Hs Hr.
  - congruence.
  - destruct (f s a) as [e|s1] eqn:E; simpl in Hr; [discriminate|].
    eapply IH; [|exact Hr]. eapply Hf; eauto.
Qed.

Lemma fold_left_preserves {A S} (P : S -> Prop) (f : S -> A -> S) :
  (forall s a, P s -> P (f s a)) ->
  forall l s, P s -> P (fold_left f l s).
Proof.
  intros Hf l. induction l as [|a l IH]; simpl; intros s Hs; auto.
Qed.

(** A lookup finds what the map holds under a key without NaN, and
    nothing under a key with one. *)
Lemma get_finite (m : gmap SpatialKey nat) k : has_nan k = false -> get m k = m !! k.
Proof. unfold get. by intros ->. Qed.

Lemma get_nan (m : gmap SpatialKey nat) k : has_nan k = true -> get m k = None.
Proof. unfold get. by intros ->. Qed.

Lemma get_Some (m : gmap SpatialKey nat) k i : get m k = Some i -> m !! k = Some i.
Proof. unfold get. by destruct (has_nan k). Qed.

(** ** Entries point at their coordinates *)

Lemma append_vertex_key_stored st c :
  key_stored st -> key_stored (append_vertex st c).
Proof.
  intros Hst k i. unfold append_vertex; simpl.
  rewrite lookup_insert. case_decide as Hk.
  - intros [= <-]. subst k.
    rewrite lookup_app_r by lia. by rewrite Nat.sub_diag.
  - intros Hi. apply Hst in Hi.
    rewrite lookup_app_l; [done|]. by eapply lookup_lt_Some.
Qed.

Lemma insert_node_key_stored trsf st p :
  key_stored st -> key_stored (insert_node round_decimals trsf st p).
Proof.
  intros Hst. unfold insert_node.
  destruct (get (vertex_map st) _); [done|]. by apply append_vertex_key_stored.
Qed.

Lemma resolve_key_stored i c st :
  key_stored st -> key_stored (resolve i c st).2.
Proof.
  intros Hst. destruct i; simpl; [done|]. by apply append_vertex_key_stored.
Qed.

Lemma append_face_key_stored st ia ib ic :
  key_stored st -> key_stored (append_face st ia ib ic).
Proof. done. Qed.

Lemma emit_triangle_key_stored st keys :
  key_stored st -> key_stored (emit_triangle st keys).
Proof.
  intros Hst. destruct keys as [[ca cb] cc]. unfold emit_triangle.
  pose proof (resolve_key_stored (get (vertex_map st) ca) ca st Hst) as H1.
  destruct (resolve (get (vertex_map st) ca) ca st) as [ia st1]; simpl in H1.
  pose proof (resolve_key_stored (get (vertex_map st) cb) cb st1 H1) as H2.
  destruct (resolve (get (vertex_map st) cb) cb st1) as [ib st2]; simpl in H2.
  pose proof (resolve_key_stored (get (vertex_map st) cc) cc st2 H2) as H3.
  destruct (resolve (get (vertex_map st) cc) cc st2) as [ic st3]; simpl in H3.
  by apply append_face_key_stored.
Qed.

Lemma add_triangle_inv t trsf st tri st' :
  add_triangle round_decimals t trsf st tri = inr st' ->
  exists keys, corner_keys round_decimals t trsf tri = inr keys /\
               st' = emit_triangle st keys.
Proof.
  unfold add_triangle. destruct (corner_keys _ _ _ _) as [e|keys]; simpl.
  - discriminate.
  - intros [= <-]. eauto.
Qed.

Lemma process_triangulation_preserves (P : Locals -> Prop) t trsf :
  (forall st p, P st -> P (insert_node round_decimals trsf st p)) ->
  (forall st tri keys,
      P st -> corner_keys round_decimals t trsf tri = inr keys ->
      P (emit_triangle st keys)) ->
  forall st st',
    P st -> process_triangulation round_decimals t trsf st = inr st' -> P st'.
Proof.
  intros Hn Ht st st' Hst. unfold process_triangulation.
  apply rfold_preserves.
  - intros s tri s' Hs Hadd.
    apply add_triangle_inv in Hadd as (keys & Hk & ->). eauto.
  - by apply fold_left_preserves.
Qed.

Lemma process_triangulation_key_stored t trsf st st' :
  key_stored st ->
  process_triangulation round_decimals t trsf st = inr st' ->
  key_stored st'.
Proof.
  apply (process_triangulation_preserves key_stored).
  - intros. by apply insert_node_key_stored.
  - intros. by apply emit_triangle_key_stored.
Qed.

(** ** Vertices hold keys, keys are roundings *)

Lemma append_vertex_vertex_keyed st c :
  vertex_keyed st -> vertex_keyed (append_vertex st c).
Proof.
  intros Hst i v. unfold append_vertex; cbn [vertices vertex_map].
  intros Hv. apply lookup_app_Some in Hv as [Hv | [_ Hv]].
  - destruct (Hst i v Hv) as (k & Hk & ->). exists k. split; [|done].
    rewrite lookup_insert. by case_decide.
  - apply list_lookup_singleton_Some in Hv as [_ <-]. exists c. split; [|done].
    rewrite lookup_insert_eq. by eexists.
Qed.

Lemma append_vertex_keys_rounded st p :
  keys_rounded round_decimals st ->
  keys_rounded round_decimals (append_vertex st (coord_of round_decimals p)).
Proof.
  intros Hst k. unfold append_vertex; cbn [vertex_map].
  rewrite lookup_insert. case_decide as Hk.
  - intros _. exists p. done.
  - apply Hst.
Qed.

Lemma append_vertex_table_ok st p :
  table_ok round_decimals st ->
  table_ok round_decimals (append_vertex st (coord_of round_decimals p)).
Proof.
  intros (H1 & H2 & H3). split; [|split].
  - by apply append_vertex_key_stored.
  - by apply append_vertex_vertex_keyed.
  - by apply append_vertex_keys_rounded.
Qed.

Lemma insert_node_table_ok trsf st p :
  table_ok round_decimals st ->
  table_ok round_decimals (insert_node round_decimals trsf st p).
Proof.
  intros Hst. unfold insert_node.
  destruct (get (vertex_map st) _); [done|]. by apply append_vertex_table_ok.
Qed.

(** Every corner key is the rounding of a point. *)
Lemma corner_keys_rounded t trsf tri ca cb cc :
  corner_keys round_decimals t trsf tri = inr (ca, cb, cc) ->
  exists a b c,
    ca = coord_of round_decimals a /\ cb = coord_of round_decimals b /\
    cc = coord_of round_decimals c.
Proof.
  unfold corner_keys.
  destruct (Node t tri.1.1) as [e|a]; [done|].
  destruct (Node t tri.1.2) as [e|b]; [done|].
  destruct (Node t tri.2) as [e|c]; [done|]. simpl.
  destruct (Transformed a trsf), (Transformed b trsf), (Transformed c trsf);
    intros [= <- <- <-]; eauto 7.
Qed.

Lemma resolve_table_ok i p st :
  table_ok round_decimals st ->
  table_ok round_decimals (resolve i (coord_of round_decimals p) st).2.
Proof.
  intros Hst. destruct i; simpl; [done|]. by apply append_vertex_table_ok.
Qed.

Lemma emit_triangle_table_ok t trsf tri st keys :
  table_ok round_decimals st ->
  corner_keys round_decimals t trsf tri = inr keys ->
  table_ok round_decimals (emit_triangle st keys).
Proof.
  intros Hst Hk. destruct keys as [[ca cb] cc].
  apply corner_keys_rounded in Hk as (a & b & c & -> & -> & ->).
  unfold emit_triangle.
  pose proof (resolve_table_ok (get (vertex_map st) (coord_of round_decimals a)) a st Hst) as H1.
  destruct (resolve _ _ st) as [ia st1]; simpl in H1.
  pose proof (resolve_table_ok (get (vertex_map st) (coord_of round_decimals b)) b st1 H1) as H2.
  destruct (resolve _ _ st1) as [ib st2]; simpl in H2.
  pose proof (resolve_table_ok (get (vertex_map st) (coord_of round_decimals c)) c st2 H2) as H3.
  destruct (resolve _ _ st2) as [ic st3]; simpl in H3.
  exact H3.
Qed.

Lemma process_triangulation_table_ok t trsf st st' :
  table_ok round_decimals st ->
  process_triangulation round_decimals t trsf st = inr st' ->
  table_ok round_decimals st'.
Proof.
  apply (process_triangulation_preserves (table_ok round_decimals)).
  - intros. by apply insert_node_table_ok.
  - intros. by eapply emit_triangle_table_ok.
Qed.

Lemma initial_table_ok : table_ok round_decimals initial_locals.
Proof.
  split; [|split].
  - intros k i. simpl. by rewrite lookup_empty.
  - intros i v. simpl. by rewrite lookup_nil.
  - intros k [i Hi]. simpl in Hi. by rewrite lookup_empty in Hi.
Qed.

(** ** Indices stay below the number of vertices *)

Lemma append_vertex_indices_valid st c :
  indices_valid st -> indices_valid (append_vertex st c).
Proof.
  intros [Hf Hm]. split; unfold append_vertex; cbn [vertices faces vertex_map].
  - intros tri i Ht Hi. rewrite length_app. specialize (Hf tri i Ht Hi). simpl. lia.
  - intros k i. rewrite length_app, lookup_insert. simpl. case_decide.
    + intros [= <-]. lia.
    + intros Hk. specialize (Hm k i Hk). lia.
Qed.

Lemma insert_node_indices_valid trsf st p :
  indices_valid st -> indices_valid (insert_node round_decimals trsf st p).
Proof.
  intros Hst. unfold insert_node.
  destruct (get (vertex_map st) _); [done|]. by apply append_vertex_indices_valid.
Qed.

Lemma append_face_indices_valid st ia ib ic :
  indices_valid st ->
  ia < length (vertices st) -> ib < length (vertices st) ->
  ic < length (vertices st) ->
  indices_valid (append_face st ia ib ic).
Proof.
  intros [Hf Hm] Ha Hb Hc. split; [|done].
  intros tri i. unfold append_face; cbn [faces vertices].
  rewrite elem_of_app, list_elem_of_singleton. intros [Ht | ->] Hi.
  - by eapply Hf.
  - apply elem_of_cons in Hi as [-> | Hi]; [done|].
    apply elem_of_cons in Hi as [-> | Hi]; [done|].
    apply elem_of_cons in Hi as [-> | Hi]; [done|].
    by apply elem_of_nil in Hi.
Qed.

(** A resolved corner gets an index below the new number of vertices. *)
Lemma resolve_indices_valid i c st :
  indices_valid st ->
  (forall j, i = Some j -> j < length (vertices st)) ->
  (resolve i c st).1 < length (vertices (resolve i c st).2) /\
  indices_valid (resolve i c st).2 /\
  length (vertices st) <= length (vertices (resolve i c st).2).
Proof.
  intros Hst Hi. destruct i as [j|]; simpl.
  - split; [by apply Hi|]. split; [done|lia].
  - rewrite length_app. simpl. split; [lia|]. split; [|lia].
    by apply append_vertex_indices_valid.
Qed.

Lemma emit_triangle_indices_valid st keys :
  indices_valid st -> indices_valid (emit_triangle st keys).
Proof.
  intros Hst. destruct keys as [[ca cb] cc]. unfold emit_triangle.
  pose proof (proj2 Hst) as Hm.
  destruct (resolve_indices_valid (get (vertex_map st) ca) ca st Hst)
    as (Ha & H1 & L1); [intros j Hj; apply get_Some in Hj; by eapply Hm|].
  destruct (resolve (get (vertex_map st) ca) ca st) as [ia st1]; simpl in Ha, H1, L1.
  destruct (resolve_indices_valid (get (vertex_map st) cb) cb st1 H1)
    as (Hb & H2 & L2); [intros j Hj; apply get_Some, Hm in Hj; lia|].
  destruct (resolve (get (vertex_map st) cb) cb st1) as [ib st2]; simpl in Hb, H2, L2.
  destruct (resolve_indices_valid (get (vertex_map st) cc) cc st2 H2)
    as (Hc & H3 & L3); [intros j Hj; apply get_Some, Hm in Hj; lia|].
  destruct (resolve (get (vertex_map st) cc) cc st2) as [ic st3]; simpl in Hc, H3, L3.
  apply append_face_indices_valid; [done|lia..].
Qed.

Lemma add_triangle_indices_valid t trsf st tri st' :
  indices_valid st ->
  add_triangle round_decimals t trsf st tri = inr st' ->
  indices_valid st'.
Proof.
  intros Hst Hadd. apply add_triangle_inv in Hadd as (keys & _ & ->).
  by apply emit_triangle_indices_valid.
Qed.

Lemma process_triangulation_indices_valid t trsf st st' :
  indices_valid st ->
  process_triangulation round_decimals t trsf st = inr st' ->
  indices_valid st'.
Proof.
  apply (process_triangulation_preserves indices_valid).
  - intros. by apply insert_node_indices_valid.
  - intros. by apply emit_triangle_indices_valid.
Qed.

Lemma initial_indices_valid : indices_valid initial_locals.
Proof.
  split.
  - intros tri i Ht. by apply elem_of_nil in Ht.
  - intros k i. simpl. by rewrite lookup_empty.
Qed.

(** ** First seen wins, as long as the corners are covered *)

Lemma insert_node_monotone trsf st p k i :
  has_nan (node_key round_decimals trsf p) = false ->
  vertex_map st !! k = Some i ->
  vertex_map (insert_node round_decimals trsf st p) !! k = Some i.
Proof.
  intros Hn Hk. unfold insert_node. fold (node_key round_decimals trsf p).
  rewrite get_finite by done.
  destruct (vertex_map st !! node_key _ _ _) eqn:E; [done|].
  cbn [append_vertex vertex_map]. rewrite lookup_insert_ne; [done|].
  intros <-. congruence.
Qed.

Lemma insert_node_covers trsf st p :
  is_Some (vertex_map (insert_node round_decimals trsf st p)
             !! node_key round_decimals trsf p).
Proof.
  unfold insert_node. fold (node_key round_decimals trsf p).
  destruct (get (vertex_map st) _) eqn:E; [apply get_Some in E; by eexists|].
  cbn [append_vertex vertex_map]. rewrite lookup_insert_eq. by eexists.
Qed.

(** A node whose key has a NaN is stored again each time it is met. *)
Lemma insert_node_nan trsf st p :
  has_nan (node_key round_decimals trsf p) = true ->
  vertices (insert_node round_decimals trsf st p) =
  vertices st ++ [vertex_of (node_key round_decimals trsf p)].
Proof.
  intros Hn. unfold insert_node. fold (node_key round_decimals trsf p).
  by rewrite get_nan.
Qed.

Lemma insert_nodes_monotone trsf nodes st k i :
  (forall p, p ∈ nodes -> has_nan (node_key round_decimals trsf p) = false) ->
  vertex_map st !! k = Some i ->
  vertex_map (fold_left (insert_node round_decimals trsf) nodes st) !! k = Some i.
Proof.
  revert st. induction nodes as [|p nodes IH]; intros st Hn Hk; [done|].
  simpl. apply IH.
  - intros q Hq. apply Hn. by apply list_elem_of_further.
  - apply insert_node_monotone; [|done]. apply Hn, list_elem_of_here.
Qed.

Lemma insert_nodes_cover trsf nodes st p :
  (forall q, q ∈ nodes -> has_nan (node_key round_decimals trsf q) = false) ->
  p ∈ nodes ->
  is_Some (vertex_map (fold_left (insert_node round_decimals trsf) nodes st)
             !! node_key round_decimals trsf p).
Proof.
  revert st. induction nodes as [|q nodes IH]; intros st Hn Hp.
  - by apply elem_of_nil in Hp.
  - assert (Hn' : forall q', q' ∈ nodes ->
                    has_nan (node_key round_decimals trsf q') = false).
    { intros q' Hq'. apply Hn. by apply list_elem_of_further. }
    simpl. apply elem_of_cons in Hp as [-> | Hp]; [|by apply IH].
    destruct (insert_node_covers trsf st q) as [i Hi].
    exists i. by apply insert_nodes_monotone.
Qed.

Lemma Node_elem_of t i p : Node t i = inr p -> p ∈ Nodes t.
Proof.
  unfold Node. destruct i as [|j]; [done|].
  destruct (Nodes t !! j) as [q|] eqn:E; [|done].
  intros [= <-]. by eapply list_elem_of_lookup_2.
Qed.

(** Under a steady transformation the corners of a triangle carry the
    keys of the node pass. *)
Lemma corner_keys_steady t trsf tri keys :
  steady trsf ->
  corner_keys round_decimals t trsf tri = inr keys ->
  exists a b c,
    Node t tri.1.1 = inr a /\ Node t tri.1.2 = inr b /\ Node t tri.2 = inr c /\
    keys = (node_key round_decimals trsf a, node_key round_decimals trsf b,
            node_key round_decimals trsf c).
Proof.
  intros Hs. unfold corner_keys, node_key.
  destruct (Node t tri.1.1) as [e|a]; [done|].
  destruct (Node t tri.1.2) as [e|b]; [done|].
  destruct (Node t tri.2) as [e|c]; [done|]. simpl.
  intros Hk. exists a, b, c. repeat split; try done.
  destruct Hs as [Hs | Hs].
  - destruct (Hs a) as [a' Ha], (Hs b) as [b' Hb], (Hs c) as [c' Hc].
    rewrite Ha, Hb, Hc in *. congruence.
  - rewrite (Hs a), (Hs b), (Hs c) in *. congruence.
Qed.

(** A triangle whose three corners are in the table inserts nothing. *)
Lemma emit_triangle_covered st (ca cb cc : SpatialKey) ia ib ic :
  has_nan ca = false -> has_nan cb = false -> has_nan cc = false ->
  vertex_map st !! ca = Some ia ->
  vertex_map st !! cb = Some ib ->
  vertex_map st !! cc = Some ic ->
  emit_triangle st (ca, cb, cc) = append_face st ia ib ic.
Proof.
  intros Na Nb Nc Ha Hb Hc. unfold emit_triangle.
  by rewrite !get_finite, Ha, Hb, Hc by done.
Qed.

(** The triangle pass over a table that covers every node. *)
Lemma add_triangles_covered t trsf tris st st' :
  steady trsf ->
  finite_keys round_decimals t trsf ->
  (forall p, p ∈ Nodes t ->
             is_Some (vertex_map st !! node_key round_decimals trsf p)) ->
  rfold (add_triangle round_decimals t trsf) tris st = inr st' ->
  vertex_map st' = vertex_map st /\ vertices st' = vertices st /\
  exists out, faces st' = faces st ++ out /\
              Forall2 (resolved round_decimals t trsf st') tris out.
Proof.
  intros Hs Hn. revert st. induction tris as [|tri tris IH]; intros st Hcov; simpl.
  - intros [= <-]. split; [done|]. split; [done|]. exists [].
    rewrite app_nil_r. by split; [|constructor].
  - destruct (add_triangle _ _ _ _ _) as [e|st1] eqn:Ea; [done|]. simpl.
    apply add_triangle_inv in Ea as (keys & Hk & ->).
    apply corner_keys_steady in Hk as (a & b & c & Ha & Hb & Hc & ->); [|done].
    destruct (Hcov a (Node_elem_of _ _ _ Ha)) as [ia Hia].
    destruct (Hcov b (Node_elem_of _ _ _ Hb)) as [ib Hib].
    destruct (Hcov c (Node_elem_of _ _ _ Hc)) as [ic Hic].
    rewrite (emit_triangle_covered st _ _ _ ia ib ic)
      by first [done | eapply Hn, Node_elem_of; eassumption].
    intros Hr. apply IH in Hr as (Hvm & Hvs & out & Hf & Hall); [|done].
    cbn [append_face vertex_map vertices faces] in Hvm, Hvs, Hf.
    split; [done|]. split; [done|].
    exists ([ia; ib; ic] :: out). split; [by rewrite Hf, <- app_assoc|].
    constructor; [|done]. exists a, b, c, ia, ib, ic. rewrite Hvm.
    by repeat split.
Qed.

(** The work on one face under a steady transformation: entries are
    kept, every node gets one, and every appended triangle holds the
    indices that the table gives the keys of its corners. *)
Lemma process_triangulation_steady t trsf st st' :
  steady trsf ->
  finite_keys round_decimals t trsf ->
  process_triangulation round_decimals t trsf st = inr st' ->
  (forall k i, vertex_map st !! k = Some i -> vertex_map st' !! k = Some i) /\
  (forall p, p ∈ Nodes t ->
             is_Some (vertex_map st' !! node_key round_decimals trsf p)) /\
  exists out, faces st' = faces st ++ out /\
              Forall2 (resolved round_decimals t trsf st') (Triangles t) out.
Proof.
  intros Hs Hn Hp. unfold process_triangulation in Hp.
  apply add_triangles_covered in Hp as (Hvm & Hvs & out & Hf & Hall);
    [|done|done|intros p Hin; by apply insert_nodes_cover].
  rewrite Hvm. split; [intros k i; by apply insert_nodes_monotone|].
  split; [intros p Hin; by apply insert_nodes_cover|].
  exists out. split; [|done]. rewrite Hf. f_equal.
  clear. generalize (Nodes t). intros nodes. revert st.
  induction nodes as [|p nodes IH]; intros st; [done|]. simpl. rewrite IH.
  unfold insert_node. by destruct (get (vertex_map st) _).
Qed.

(** Two keys of the table share an index only if they are equal. *)
Lemma key_stored_injective st k1 k2 i :
  key_stored st ->
  vertex_map st !! k1 = Some i -> vertex_map st !! k2 = Some i -> k1 = k2.
Proof.
  intros Hst H1 H2. apply Hst in H1. apply Hst in H2.
  rewrite H1 in H2. injection H2 as E1 E2 E3.
  destruct k1 as [[x1 y1] z1], k2 as [[x2 y2] z2]. simpl in *. congruence.
Qed.

(** The per-face work leaves the face counter alone. *)
Lemma process_triangulation_face_processed t trsf st st' :
  process_triangulation round_decimals t trsf st = inr st' ->
  face_processed st' = face_processed st.
Proof.
  apply (process_triangulation_preserves
           (fun s => face_processed s = face_processed st)); [| |done].
  - intros s p Hs. unfold insert_node. by destruct (get (vertex_map s) _).
  - intros s tri [[ca cb] cc] Hs _. unfold emit_triangle.
    by destruct (get (vertex_map s) ca), (get (vertex_map s) cb), (get (vertex_map s) cc).
Qed.

End Containers.

(** * Properties of the effects *)

(** From here on [f] is an observer and [cb] an observer or [None],
    unless another type is given. *)
Implicit Types (f : Observer) (cb : option Observer).

Section Effects.

Context `{PyFloat}.
Variable round_decimals : Z.

(** A checkpoint never raises: whatever the observer does, the call
    returns and the event has been handed over. *)
Lemma safe_call_progress_eq cb p s m w :
  _safe_call_progress cb p s m w =
  (Return tt, record_event cb {| percent := p; state := s; message := m |} w).
Proof.
  destruct cb as [f|]; [|done].
  unfold _safe_call_progress, record_event, try_except, call_observer.
  cbn. unfold callable_of. by destruct (f (events w) _).
Qed.

Lemma face_loop_done fuel pe cb total exp st w :
  exp_rest exp = [] ->
  face_loop round_decimals fuel pe cb total exp st w = (Return st, w).
Proof. intros E. destruct fuel; simpl; by rewrite E. Qed.

Lemma face_loop_out fuel pe cb total exp st w face r :
  exp_rest exp = face :: r -> fuel = 0 ->
  face_loop round_decimals fuel pe cb total exp st w = (OutOfFuel, w).
Proof. intros E ->. simpl. by rewrite E. Qed.

(** One turn of the loop. *)
Lemma face_loop_step fuel pe cb total exp st w face r :
  exp_rest exp = face :: r ->
  face_loop round_decimals (S fuel) pe cb total exp st w =
  let st1 := set_face_processed st (face_processed st + 1) in
  let exp1 := {| exp_shape := exp_shape exp; exp_rest := r |} in
  match Triangulation face with
  | None =>
      match Next pe exp1 with
      | inl e => (Raise e, w)
      | inr exp2 => face_loop round_decimals fuel pe cb total exp2 st1 w
      end
  | Some t =>
      match process_triangulation round_decimals t (Location face) st1 with
      | inl e => (Raise e, w)
      | inr st2 =>
          face_loop round_decimals fuel pe cb total exp1 st2
            (if update_due (face_processed st2) total
             then record_event cb (processing_event (face_processed st2) total) w
             else w)
      end
  end.
Proof.
  intros E. simpl. rewrite E.
  unfold mbind, M_bind, bind, lift, Next. rewrite E. cbn [exp_rest exp_shape].
  destruct (Triangulation face) as [t|].
  - destruct (process_triangulation _ _ _ _) as [e|st2]; [done|].
    destruct (update_due _ _).
    + by rewrite safe_call_progress_eq.
    + done.
  - destruct r as [|f2 r2]; [destruct pe|]; done.
Qed.

(** With an observer, what the walk raises is derived from [Exception]. *)
Lemma face_loop_raises_derived fuel pe cb total exp st w b w' :
  face_loop round_decimals fuel pe cb total exp st w = (Raise b, w') ->
  exists e : Exception, b = Derived e.
Proof.
  revert exp st w. induction fuel as [|fuel IH]; intros exp st w.
  - destruct (exp_rest exp) as [|face r] eqn:E.
    + by rewrite face_loop_done.
    + by erewrite face_loop_out.
  - destruct (exp_rest exp) as [|face r] eqn:E.
    + by rewrite face_loop_done.
    + erewrite face_loop_step by done. cbv zeta.
      destruct (Triangulation face) as [t|].
      * destruct (process_triangulation _ _ _ _) as [e|st2]; [|apply IH].
        intros [= <- _]. by exists e.
      * destruct (Next pe _) as [e|exp2]; [|apply IH].
        intros [= <- _]. by exists e.
Qed.

(** The three ways a walk with an observer can end. *)
Lemma face_loop_cases fuel pe cb total exp st w :
  (exists st' w', face_loop round_decimals fuel pe cb total exp st w = (Return st', w')) \/
  (exists (e : Exception) w',
      face_loop round_decimals fuel pe cb total exp st w = (Raise e, w')) \/
  (exists w', face_loop round_decimals fuel pe cb total exp st w = (OutOfFuel, w')).
Proof.
  destruct (face_loop _ _ _ _ _ _ _ _) as [[st'|b|] w'] eqn:El.
  - left. by eexists _, _.
  - right. left. destruct (face_loop_raises_derived _ _ _ _ _ _ _ _ _ El) as [e ->].
    by eexists _, _.
  - right. right. by eexists.
Qed.

(** The body of the [try], stage by stage. *)
Lemma convert_body_eq fuel env cb w :
  convert_body round_decimals fuel env cb w =
  let w1 := record_event cb (checkpoint 1 "starting" "Starting conversion") w in
  match ReadFile env with
  | inl e => (Raise e, w1)
  | inr status =>
    if negb (status =? IFSelect_RetDone)%Z then
      (Return (false, "STEP read failed (status=" +:+ pretty status +:+ ")"),
       record_event cb
         (checkpoint 0 "error" ("STEP read failed (status=" +:+ pretty status +:+ ")")) w1)
    else
      let w2 := record_event cb (checkpoint 5 "loaded" "STEP file loaded") w1 in
      match TransferRoots env with
      | Some e => (Raise e, w2)
      | None =>
        let w3 := record_event cb (checkpoint 8 "meshing" "Starting tessellation") w2 in
        match mesh_outcome env with
        | Some e => (Raise e, w3)
        | None =>
          let total_faces := count_faces (shape env) 0 in
          if (total_faces =? 0)%Z then
            (Return (false, "No faces found in STEP file."),
             record_event cb (checkpoint 0 "error" "No faces found in STEP")
               (world_before_walk cb w))
          else
            match face_walk round_decimals fuel env cb w with
            | (Raise e, w5) => (Raise e, w5)
            | (OutOfFuel, w5) => (OutOfFuel, w5)
            | (Return st, w5) =>
              if is_empty (vertices st) || is_empty (faces st) then
                (Return (false, "No mesh extracted from STEP file."),
                 record_event cb
                   (checkpoint 0 "error" "No mesh extracted from STEP file.") w5)
              else
                let w6 := record_event cb
                            (checkpoint 90 "exporting" "Preparing to export GLB") w5 in
                match export_glb env (vertices st) (faces st) with
                | Some e => (Raise e, w6)
                | None =>
                  (Return (true, converted_message total_faces st),
                   record_event cb
                     (checkpoint 100 "finished" (converted_message total_faces st))
                     {| events := events w6;
                        written := Some (vertices st, faces st) |})
                end
            end
        end
      end
  end.
Proof.
  unfold convert_body, face_walk, world_before_walk, mesh_outcome.
  unfold mbind, M_bind, bind. rewrite safe_call_progress_eq.
  unfold lift at 1. destruct (ReadFile env) as [e|status]; [done|].
  destruct (negb _); simpl.
  { by rewrite safe_call_progress_eq. }
  rewrite safe_call_progress_eq. unfold call at 1.
  destruct (TransferRoots env) as [e|]; [done|].
  rewrite safe_call_progress_eq. unfold try_except, call, lift.
  destruct (BRepMesh_IncrementalMesh env) as [e|].
  - destruct (is_TypeError e).
    + destruct (BRepMesh_IncrementalMesh_fallback env); [done|].
      rewrite safe_call_progress_eq.
      destruct (_ =? 0)%Z; [by rewrite safe_call_progress_eq|].
      destruct (face_loop _ _ _ _ _ _ _ _) as [[st| |] w5]; try done.
      destruct (_ || _); rewrite safe_call_progress_eq; [done|].
      unfold export. destruct (export_glb _ _ _); [done|].
      by rewrite safe_call_progress_eq.
    + done.
  - rewrite safe_call_progress_eq.
    destruct (_ =? 0)%Z; [by rewrite safe_call_progress_eq|].
    destruct (face_loop _ _ _ _ _ _ _ _) as [[st| |] w5]; try done.
    destruct (_ || _); rewrite safe_call_progress_eq; [done|].
    unfold export. destruct (export_glb _ _ _); [done|].
    by rewrite safe_call_progress_eq.
Qed.

Lemma convert_step_to_glb_eq fuel env cb w :
  convert_step_to_glb round_decimals fuel env cb w =
  if negb (src_exists env) then
    (Return (false, "Input file not found: " +:+ src env),
     record_event cb (checkpoint 0 "error" ("Input file not found: " +:+ src env)) w)
  else
    match import_error env with
    | Some e =>
        (Return (false, "Required libraries missing or failed to import: "
                          +:+ str e +:+ ". Install pythonocc-core and trimesh."),
         record_event cb
           (checkpoint 0 "error"
              ("Required libraries missing or failed to import: " +:+ str e +:+ "."))
           w)
    | None =>
        match convert_body round_decimals fuel env cb w with
        | (Raise (Derived e), w') =>
            (Return (false, "Conversion exception: " +:+ str e +:+ "
" +:+ format_exc env e),
             record_event cb
               (checkpoint 0 "error" ("Conversion exception: " +:+ str e)) w')
        | r => r
        end
    end.
Proof.
  unfold convert_step_to_glb, mbind, M_bind, bind.
  destruct (negb _); [by rewrite safe_call_progress_eq|].
  destruct (import_error env); [by rewrite safe_call_progress_eq|].
  unfold try_except.
  destruct (convert_body _ _ _ _ _) as [[r|[e| | |]|] w']; try done.
  by rewrite safe_call_progress_eq.
Qed.

Lemma written_record_event cb ev w : written (record_event cb ev w) = written w.
Proof. by destruct cb. Qed.

Lemma events_record_event_None ev w : record_event None ev w = w.
Proof. done. Qed.

Lemma written_world_before_walk cb w : written (world_before_walk cb w) = written w.
Proof. unfold world_before_walk. by rewrite !written_record_event. Qed.

(** The walk treats every state with the property [P] alike when the
    per-face work and the counter keep it. *)
Lemma face_loop_preserves (P : Locals -> Prop) :
  (forall st n, P st -> P (set_face_processed st n)) ->
  (forall t trsf st st',
      P st -> process_triangulation round_decimals t trsf st = inr st' -> P st') ->
  forall fuel pe cb total exp st w st' w',
    P st ->
    face_loop round_decimals fuel pe cb total exp st w = (Return st', w') ->
    P st'.
Proof.
  intros Hc Hp fuel. induction fuel as [|fuel IH]; intros pe cb total exp st w st' w' Hst.
  - destruct (exp_rest exp) as [|face r] eqn:E.
    + rewrite face_loop_done by done. by intros [= <- _].
    + by erewrite face_loop_out.
  - destruct (exp_rest exp) as [|face r] eqn:E.
    + rewrite face_loop_done by done. by intros [= <- _].
    + erewrite face_loop_step by done. cbv zeta.
      destruct (Triangulation face) as [t|].
      * destruct (process_triangulation _ _ _ _) as [e|st2] eqn:Ep; [done|].
        apply IH. eapply Hp; [|exact Ep]. by apply Hc.
      * destruct (Next pe _) as [e|exp2]; [done|]. apply IH. by apply Hc.
Qed.

(** The same when the per-face work keeps [P] only on the faces of the
    shape at hand. *)
Lemma face_loop_preserves_on (Q : TopoDS_Face -> Prop) (P : Locals -> Prop) :
  (forall st n, P st -> P (set_face_processed st n)) ->
  (forall face t st st',
      Q face -> Triangulation face = Some t -> P st ->
      process_triangulation round_decimals t (Location face) st = inr st' -> P st') ->
  forall fuel pe cb total exp st w st' w',
    Forall Q (exp_shape exp) -> Forall Q (exp_rest exp) ->
    P st ->
    face_loop round_decimals fuel pe cb total exp st w = (Return st', w') ->
    P st'.
Proof.
  intros Hc Hp fuel.
  induction fuel as [|fuel IH]; intros pe cb total exp st w st' w' Hsh Hre Hst.
  - destruct (exp_rest exp) as [|face r] eqn:E.
    + rewrite face_loop_done by done. by intros [= <- _].
    + by erewrite face_loop_out.
  - destruct (exp_rest exp) as [|face r] eqn:E.
    + rewrite face_loop_done by done. by intros [= <- _].
    + erewrite face_loop_step by done. cbv zeta.
      apply Forall_cons in Hre as [Hface Hre].
      destruct (Triangulation face) as [t|] eqn:Et.
      * destruct (process_triangulation _ _ _ _) as [e|st2] eqn:Ep; [done|].
        apply IH; [done|done|]. eapply Hp; [exact Hface|exact Et| |exact Ep].
        by apply Hc.
      * destruct r as [|f2 r2]; [destruct pe|]; cbn [Next exp_rest exp_shape].
        -- done.
        -- apply IH; [done|done|by apply Hc].
        -- apply IH; [done|done|by apply Hc].
        -- apply Forall_cons in Hre as [_ Hre]. apply IH; [done|done|by apply Hc].
Qed.

(** First seen wins over a whole walk whose faces have steady
    transformations. *)
Lemma face_loop_first_seen fuel pe cb total exp st w st' w' k i :
  Forall (regular round_decimals) (exp_shape exp) ->
  Forall (regular round_decimals) (exp_rest exp) ->
  vertex_map st !! k = Some i ->
  face_loop round_decimals fuel pe cb total exp st w = (Return st', w') ->
  vertex_map st' !! k = Some i.
Proof.
  apply (face_loop_preserves_on (regular round_decimals)
           (fun s => vertex_map s !! k = Some i)).
  - by intros s n.
  - intros face t s s' [Hs Hn] Et Hk Hp.
    by apply (process_triangulation_steady round_decimals t _ s s' Hs (Hn t Et) Hp).
Qed.

(** The walk writes no file. *)
Lemma face_loop_written fuel pe cb total exp st w :
  written (face_loop round_decimals fuel pe cb total exp st w).2 = written w.
Proof.
  revert exp st w. induction fuel as [|fuel IH]; intros exp st w.
  - destruct (exp_rest exp) as [|face r] eqn:E.
    + by rewrite face_loop_done.
    + by erewrite face_loop_out.
  - destruct (exp_rest exp) as [|face r] eqn:E.
    + by rewrite face_loop_done.
    + erewrite face_loop_step by done. cbv zeta.
      destruct (Triangulation face) as [t|].
      * destruct (process_triangulation _ _ _ _) as [e|st2]; [done|].
        rewrite IH. destruct (update_due _ _); [|done].
        apply written_record_event.
      * destruct (Next pe _) as [e|exp2]; [done|]. apply IH.
Qed.



(** ** The walk and its updates *)

Lemma count_faces_length (l : list TopoDS_Face) n :
  count_faces l n = (n + Z.of_nat (length l))%Z.
Proof.
  revert n. induction l as [|f l IH]; intros n; simpl.
  - lia.
  - rewrite IH. lia.
Qed.

(** Re-entering the shape after stepping past its end repeats the same
    walk, so the loop never ends. *)
Lemma face_loop_rewinding fuel cb total exp st w :
  runs_off (exp_shape exp) = true ->
  runs_off (exp_rest exp) = true ->
  forall st', (face_loop round_decimals fuel PastEndRewinds cb total exp st w).1
              <> Return st'.
Proof.
  revert exp st w. induction fuel as [|fuel IH]; intros exp st w Hs Hr st'.
  - destruct (exp_rest exp) as [|face r] eqn:E; [done|].
    by erewrite face_loop_out.
  - destruct (exp_rest exp) as [|face r] eqn:E; [done|].
    erewrite face_loop_step by done. cbv zeta. simpl in Hr.
    destruct (Triangulation face) as [t|].
    + destruct (process_triangulation _ _ _ _) as [e|st2]; [done|].
      by apply IH.
    + destruct r as [|f2 r2]; simpl; by apply IH.
Qed.

(** Otherwise every turn consumes at least one face. *)
Lemma face_loop_bounded fuel pe cb total exp st w st' w' :
  pe <> PastEndRewinds \/ runs_off (exp_rest exp) = false ->
  face_loop round_decimals fuel pe cb total exp st w = (Return st', w') ->
  (face_processed st' <= face_processed st + Z.of_nat (length (exp_rest exp)))%Z.
Proof.
  revert exp st w. induction fuel as [|fuel IH]; intros exp st w Hc.
  - destruct (exp_rest exp) as [|face r] eqn:E.
    + rewrite face_loop_done by done. intros [= <- _]. simpl. lia.
    + by erewrite face_loop_out.
  - destruct (exp_rest exp) as [|face r] eqn:E.
    + rewrite face_loop_done by done. intros [= <- _]. simpl. lia.
    + erewrite face_loop_step by done. cbv zeta. simpl in Hc.
      destruct (Triangulation face) as [t|].
      * destruct (process_triangulation _ _ _ _) as [e|st2] eqn:Ep; [done|].
        intros Hl. apply IH in Hl; [|done]. cbn [exp_rest] in Hl.
        apply process_triangulation_face_processed in Ep.
        cbn [set_face_processed face_processed] in Ep.
        cbn [length]. lia.
      * destruct r as [|f2 r2].
        -- destruct pe; simpl.
           ++ done.
           ++ rewrite face_loop_done by done. intros [= <- _].
              cbn [set_face_processed face_processed length]. lia.
           ++ by destruct Hc.
        -- cbn [Next exp_rest]. intros Hl. apply IH in Hl; [|done].
           cbn [exp_rest set_face_processed face_processed] in Hl.
           cbn [length]. lia.
Qed.

(** The updates of a walk: one per listed face count, in increasing
    order, each at a count where line 187 asks for it. *)
Lemma face_loop_trace fuel pe f total exp st w :
  exists fps : list Z,
    events (face_loop round_decimals fuel pe (Some f) total exp st w).2 =
      events w ++ map (fun fp => processing_event fp total) fps /\
    Forall (fun fp => face_processed st < fp)%Z fps /\
    StronglySorted Z.lt fps /\
    Forall (fun fp => update_due fp total = true) fps /\
    (forall st',
        (face_loop round_decimals fuel pe (Some f) total exp st w).1 = Return st' ->
        Forall (fun fp => fp <= face_processed st')%Z fps /\
        (face_processed st <= face_processed st')%Z).
Proof.
  revert exp st w. induction fuel as [|fuel IH]; intros exp st w.
  - exists []. destruct (exp_rest exp) as [|face r] eqn:E.
    + rewrite face_loop_done by done. simpl. rewrite app_nil_r.
      split; [done|]. do 3 (split; [constructor|]).
      intros st' [= <-]. split; [constructor|lia].
    + erewrite face_loop_out by done. simpl. rewrite app_nil_r.
      split; [done|]. do 3 (split; [constructor|]). intros st' [=].
  - destruct (exp_rest exp) as [|face r] eqn:E.
    { exists []. rewrite face_loop_done by done. simpl. rewrite app_nil_r.
      split; [done|]. do 3 (split; [constructor|]).
      intros st' [= <-]. split; [constructor|lia]. }
    erewrite face_loop_step by done. cbv zeta.
    destruct (Triangulation face) as [t|].
    + destruct (process_triangulation _ _ _ _) as [e|st2] eqn:Ep.
      { exists []. simpl. rewrite app_nil_r.
        split; [done|]. do 3 (split; [constructor|]). intros st' [=]. }
      apply process_triangulation_face_processed in Ep.
      cbn [set_face_processed face_processed] in Ep.
      destruct (update_due (face_processed st2) total) eqn:Hd.
      * destruct (IH {| exp_shape := exp_shape exp; exp_rest := r |} st2
                    (record_event (Some f)
                       (processing_event (face_processed st2) total) w))
          as (fps & He & Hgt & Hs & Hu & Hr).
        exists (face_processed st2 :: fps). split; [|split; [|split; [|split]]].
        -- rewrite He. simpl. by rewrite <- app_assoc.
        -- constructor; [lia|]. eapply Forall_impl; [exact Hgt|].
           simpl. intros; lia.
        -- by constructor.
        -- by constructor.
        -- intros st' Hst'. destruct (Hr st' Hst') as [Hle Hfp]. split; [|lia].
           by constructor.
      * destruct (IH {| exp_shape := exp_shape exp; exp_rest := r |} st2 w)
          as (fps & He & Hgt & Hs & Hu & Hr).
        exists fps. split; [done|]. split; [|split; [done|split; [done|]]].
        -- eapply Forall_impl; [exact Hgt|]. simpl. intros; lia.
        -- intros st' Hst'. destruct (Hr st' Hst') as [Hle Hfp]. split; [done|lia].
    + destruct (Next pe _) as [e|exp2].
      { exists []. simpl. rewrite app_nil_r.
        split; [done|]. do 3 (split; [constructor|]). intros st' [=]. }
      destruct (IH exp2 (set_face_processed st (face_processed st + 1)) w)
        as (fps & He & Hgt & Hs & Hu & Hr).
      cbn [set_face_processed face_processed] in Hgt, Hr.
      exists fps. split; [done|]. split; [|split; [done|split; [done|]]].
      * eapply Forall_impl; [exact Hgt|]. simpl. intros; lia.
      * intros st' Hst'. destruct (Hr st' Hst') as [Hle Hfp]. split; [done|lia].
Qed.

Lemma face_loop_silent fuel pe total exp st w :
  events (face_loop round_decimals fuel pe None total exp st w).2 = events w.
Proof.
  change (@None Callable) with (progress_cb_of None).
  revert exp st w. induction fuel as [|fuel IH]; intros exp st w.
  - destruct (exp_rest exp) as [|face r] eqn:E.
    + by rewrite face_loop_done.
    + by erewrite face_loop_out.
  - destruct (exp_rest exp) as [|face r] eqn:E.
    + by rewrite face_loop_done.
    + erewrite face_loop_step by done. cbv zeta.
      destruct (Triangulation face) as [t|].
      * destruct (process_triangulation _ _ _ _) as [e|st2]; [done|].
        rewrite IH. by destruct (update_due _ _).
      * destruct (Next pe _) as [e|exp2]; [done|]. apply IH.
Qed.

(** Over faces that all have a triangulation the walk behaves as the
    design document says: it visits every face, and the observer gets
    one update at each count at which line 187 asks for one. *)
Lemma face_loop_triangulated fuel pe f total exp st w st' w' :
  Forall (fun face => is_Some (Triangulation face)) (exp_rest exp) ->
  face_loop round_decimals fuel pe (Some f) total exp st w = (Return st', w') ->
  face_processed st' = (face_processed st + Z.of_nat (length (exp_rest exp)))%Z /\
  events w' =
    events w ++
    map (fun fp => processing_event fp total)
      (List.filter (fun fp => update_due fp total)
         (seqZ (face_processed st + 1) (Z.of_nat (length (exp_rest exp))))).
Proof.
  revert exp st w. induction fuel as [|fuel IH]; intros exp st w Hall.
  - destruct (exp_rest exp) as [|face r] eqn:E.
    + rewrite face_loop_done by done. intros [= <- <-]. simpl.
      rewrite app_nil_r. split; [lia|done].
    + by erewrite face_loop_out.
  - destruct (exp_rest exp) as [|face r] eqn:E.
    + rewrite face_loop_done by done. intros [= <- <-]. simpl.
      rewrite app_nil_r. split; [lia|done].
    + erewrite face_loop_step by done. cbv zeta.
      apply Forall_cons in Hall as [[t Ht] Hall]. rewrite Ht.
      destruct (process_triangulation _ _ _ _) as [e|st2] eqn:Ep; [done|].
      apply process_triangulation_face_processed in Ep.
      cbn [set_face_processed face_processed] in Ep.
      intros Hl. apply IH in Hl as [Hfp Hev]; [|done].
      cbn [exp_rest] in Hfp, Hev. cbn [length].
      split; [lia|]. rewrite Hev.
      rewrite (seqZ_cons (face_processed st + 1)) by lia.
      replace (Z.pred (Z.of_nat (S (length r)))) with (Z.of_nat (length r)) by lia.
      replace (Z.succ (face_processed st + 1)) with (face_processed st2 + 1)%Z by lia.
      cbn [List.filter]. rewrite <- Ep.
      destruct (update_due (face_processed st2) total).
      * cbn [record_event progress_cb_of fmap option_fmap option_map events map]. by rewrite <- app_assoc.
      * done.
Qed.

(** With one unit of fuel per face such a walk does not run dry. *)
Lemma face_loop_triangulated_ends fuel pe cb total exp st w :
  Forall (fun face => is_Some (Triangulation face)) (exp_rest exp) ->
  length (exp_rest exp) <= fuel ->
  (face_loop round_decimals fuel pe cb total exp st w).1 <> OutOfFuel.
Proof.
  revert exp st w. induction fuel as [|fuel IH]; intros exp st w Hall Hlen.
  - destruct (exp_rest exp) as [|face r] eqn:E; [|simpl in Hlen; lia].
    by rewrite face_loop_done.
  - destruct (exp_rest exp) as [|face r] eqn:E.
    + by rewrite face_loop_done.
    + erewrite face_loop_step by done. cbv zeta.
      apply Forall_cons in Hall as [[t Ht] Hall]. rewrite Ht.
      destruct (process_triangulation _ _ _ _) as [e|st2]; [done|].
      apply IH; [done|]. simpl in *. lia.
Qed.


End Effects.

(** * The two failures of a conversion that found no geometry *)

Section Failures.

Context `{PyFloat}.
Variable round_decimals : Z.

Lemma convert_reaches_walk fuel env cb w :
  reaches_walk env ->
  convert_step_to_glb round_decimals fuel env cb w =
  let total_faces := count_faces (shape env) 0 in
  if (total_faces =? 0)%Z then
    (Return (false, "No faces found in STEP file."),
     record_event cb (checkpoint 0 "error" "No faces found in STEP")
       (world_before_walk cb w))
  else
    match face_walk round_decimals fuel env cb w with
    | (Raise (Derived e), w5) =>
        (Return (false, "Conversion exception: " +:+ str e +:+ "
" +:+ format_exc env e),
         record_event cb (checkpoint 0 "error" ("Conversion exception: " +:+ str e)) w5)
    | (Raise b, w5) => (Raise b, w5)
    | (OutOfFuel, w5) => (OutOfFuel, w5)
    | (Return st, w5) =>
        if is_empty (vertices st) || is_empty (faces st) then
          (Return (false, "No mesh extracted from STEP file."),
           record_event cb
             (checkpoint 0 "error" "No mesh extracted from STEP file.") w5)
        else
          let w6 := record_event cb
                      (checkpoint 90 "exporting" "Preparing to export GLB") w5 in
          match export_glb env (vertices st) (faces st) with
          | Some e =>
              (Return (false, "Conversion exception: " +:+ str e +:+ "
" +:+ format_exc env e),
               record_event cb
                 (checkpoint 0 "error" ("Conversion exception: " +:+ str e)) w6)
          | None =>
              (Return (true, converted_message total_faces st),
               record_event cb
                 (checkpoint 100 "finished" (converted_message total_faces st))
                 {| events := events w6; written := Some (vertices st, faces st) |})
          end
    end.
Proof.
  intros (Hs & Hi & Hr & Ht & Hm).
  rewrite convert_step_to_glb_eq, convert_body_eq, Hs, Hi, Hr, Ht, Hm. cbv zeta.
  cbn [negb Z.eqb IFSelect_RetDone Pos.eqb].
  destruct (_ =? 0)%Z; [done|].
  destruct (face_walk _ _ _ _ _) as [[st|[e| | |]|] w5]; [|done..].
  destruct (_ || _); [done|].
  by destruct (export_glb _ _ _).
Qed.

(** C7.  When the enumeration counts no face, the conversion returns the
    failure [No faces found in STEP file.] whatever the fuel of the face
    walk, so without a single turn of it; the file is not written; and an
    observer has received the four checkpoints of the earlier stages and
    then one checkpoint [(0, error)], which is the last. *)
Theorem no_faces_found_fails_before_mesh_work fuel env cb :
  reaches_walk env ->
  count_faces (shape env) 0 = 0%Z ->
  convert_step_to_glb round_decimals fuel env cb empty_world =
  (Return (false, "No faces found in STEP file."),
   {| events :=
        match cb with
        | Some _ =>
            [checkpoint 1 "starting" "Starting conversion";
             checkpoint 5 "loaded" "STEP file loaded";
             checkpoint 8 "meshing" "Starting tessellation";
             checkpoint 12 "meshed" "Tessellation complete";
             checkpoint 0 "error" "No faces found in STEP"]
        | None => []
        end;
      written := None |}).
Proof.
  intros Hr Hc. rewrite convert_reaches_walk by done. cbv zeta. rewrite Hc.
  by destruct cb.
Qed.

(** C8.  When the enumeration counted at least one face and the walk ends
    with no vertex or no triangle, the conversion returns the failure
    [No mesh extracted from STEP file.], which is not the failure of the
    empty enumeration; the observer gets a last checkpoint [(0, error)]
    and the file is left as it was. *)
Theorem empty_mesh_fails_without_export fuel env cb w st w5 :
  reaches_walk env ->
  count_faces (shape env) 0 <> 0%Z ->
  face_walk round_decimals fuel env cb w = (Return st, w5) ->
  vertices st = [] \/ faces st = [] ->
  convert_step_to_glb round_decimals fuel env cb w =
    (Return (false, "No mesh extracted from STEP file."),
     record_event cb
       (checkpoint 0 "error" "No mesh extracted from STEP file.") w5) /\
  written (convert_step_to_glb round_decimals fuel env cb w).2 = written w /\
  "No mesh extracted from STEP file." <> "No faces found in STEP file.".
Proof.
  intros Hr Hc Hw He.
  assert (Hcv : convert_step_to_glb round_decimals fuel env cb w =
    (Return (false, "No mesh extracted from STEP file."),
     record_event cb
       (checkpoint 0 "error" "No mesh extracted from STEP file.") w5)).
  { rewrite convert_reaches_walk by done. cbv zeta.
    apply Z.eqb_neq in Hc. rewrite Hc, Hw.
    by destruct He as [-> | ->]; [|rewrite orb_true_r]. }
  split; [done|]. split; [|done].
  rewrite Hcv. cbn [snd]. rewrite written_record_event.
  pose proof (face_loop_written round_decimals fuel (past_end env) cb
                (count_faces (shape env) 0) (Explorer_init (shape env))
                initial_locals (world_before_walk cb w)) as Hfw.
  unfold face_walk in Hw. rewrite Hw in Hfw. cbn [snd] in Hfw.
  by rewrite Hfw, written_world_before_walk.
Qed.

End Failures.

(** * The mesh of a conversion *)

Section Mesh.

Context `{PyFloat}.
Variable round_decimals : Z.

(** A written file holds the containers of a finished walk. *)
Lemma convert_written fuel env cb w :
  written w = None ->
  forall m,
    written (convert_step_to_glb round_decimals fuel env cb w).2 = Some m ->
    exists st w5,
      face_walk round_decimals fuel env cb w = (Return st, w5) /\
      m = (vertices st, faces st) /\
      vertices st <> [] /\ faces st <> [].
Proof.
  intros Hw m. rewrite convert_step_to_glb_eq.
  destruct (negb _); cbn [snd].
  { rewrite written_record_event. congruence. }
  destruct (import_error env); cbn [snd].
  { rewrite written_record_event. congruence. }
  rewrite convert_body_eq. cbv zeta.
  destruct (ReadFile env) as [e|status]; cbn [snd].
  { rewrite !written_record_event. congruence. }
  destruct (negb _); cbn [snd].
  { rewrite !written_record_event. congruence. }
  destruct (TransferRoots env); cbn [snd].
  { rewrite !written_record_event. congruence. }
  destruct (mesh_outcome env); cbn [snd].
  { rewrite !written_record_event. congruence. }
  destruct (_ =? 0)%Z; cbn [snd].
  { rewrite written_record_event, written_world_before_walk. congruence. }
  pose proof (face_loop_written round_decimals fuel (past_end env) cb
                (count_faces (shape env) 0) (Explorer_init (shape env))
                initial_locals (world_before_walk cb w)) as Hfw.
  rewrite written_world_before_walk, Hw in Hfw. fold (face_walk round_decimals fuel env cb w) in Hfw.
  destruct (face_walk _ _ _ _ _) as [[st|[e| | |]|] w5]; cbn [snd] in *;
    [| |congruence..].
  - destruct (is_empty (vertices st)) eqn:Ev; cbn [orb snd].
    { rewrite written_record_event. congruence. }
    destruct (is_empty (faces st)) eqn:Ef; cbn [snd].
    { rewrite written_record_event. congruence. }
    destruct (export_glb _ _ _); cbn [snd].
    { rewrite !written_record_event. congruence. }
    rewrite written_record_event. cbn [written]. intros [= <-].
    exists st, w5. split; [done|]. split; [done|].
    split; intros E; rewrite E in *; discriminate.
  - rewrite written_record_event. congruence.
Qed.

(** The containers of a walk that starts a conversion. *)
Lemma face_walk_invariants fuel env cb w st w5 :
  face_walk round_decimals fuel env cb w = (Return st, w5) ->
  table_ok round_decimals st /\ indices_valid st.
Proof.
  intros Hw. unfold face_walk in Hw. split.
  - eapply (face_loop_preserves round_decimals (table_ok round_decimals));
      [| |apply initial_table_ok|exact Hw].
    + by intros s n.
    + intros. by eapply process_triangulation_table_ok.
  - eapply (face_loop_preserves round_decimals indices_valid);
      [| |apply initial_indices_valid|exact Hw].
    + by intros s n.
    + intros. by eapply process_triangulation_indices_valid.
Qed.

(** C4.  The containers start with valid indices; appending a vertex,
    one turn of the node loop, one turn of the triangle loop (its
    insertions of missing corners and its append) and the work on a whole
    face keep every index of every triangle, and of the table, below
    [len(vertices)]; so do the containers at the end of any walk, and so
    does every mesh a conversion writes. *)
Theorem indices_are_valid_throughout :
  indices_valid initial_locals /\
  (forall st c, indices_valid st -> indices_valid (append_vertex st c)) /\
  (forall trsf st p,
      indices_valid st -> indices_valid (insert_node round_decimals trsf st p)) /\
  (forall t trsf st tri st',
      indices_valid st ->
      add_triangle round_decimals t trsf st tri = inr st' ->
      indices_valid st') /\
  (forall fuel pe cb total exp st w st' w',
      indices_valid st ->
      face_loop round_decimals fuel pe cb total exp st w = (Return st', w') ->
      indices_valid st') /\
  (forall fuel env cb m,
      written (convert_step_to_glb round_decimals fuel env cb empty_world).2
        = Some m ->
      mesh_valid m).
Proof.
  split; [apply initial_indices_valid|].
  split; [intros; by apply append_vertex_indices_valid|].
  split; [intros; by apply insert_node_indices_valid|].
  split; [intros; by eapply add_triangle_indices_valid|].
  split.
  - intros fuel pe cb total exp st w st' w' Hst Hl.
    eapply (face_loop_preserves round_decimals indices_valid); [| |exact Hst|exact Hl].
    + by intros s n.
    + intros. by eapply process_triangulation_indices_valid.
  - intros fuel env cb m Hm.
    apply convert_written in Hm as (st & w5 & Hw & -> & _); [|done].
    apply face_walk_invariants in Hw as [_ [Hf _]].
    intros tri i. apply Hf.
Qed.

(** C10.  At the end of the walk of a conversion every entry of the
    vertex table points at the vertex made of the three rounded
    coordinates of its key, every vertex is such a triple for a key of the
    table, and every key is the rounding of a point; so every vertex of a
    written mesh consists of rounded coordinates. *)
Theorem vertices_are_rounded_keys :
  (forall fuel env cb w st w5,
      face_walk round_decimals fuel env cb w = (Return st, w5) ->
      (forall k i, vertex_map st !! k = Some i ->
                   vertices st !! i = Some [k.1.1; k.1.2; k.2]) /\
      (forall i v, vertices st !! i = Some v ->
                   exists k, is_Some (vertex_map st !! k) /\ v = [k.1.1; k.1.2; k.2]) /\
      (forall k, is_Some (vertex_map st !! k) ->
                 exists p, k = (round (Pnt_X p) round_decimals,
                                round (Pnt_Y p) round_decimals,
                                round (Pnt_Z p) round_decimals))) /\
  (forall fuel env cb vs fs,
      written (convert_step_to_glb round_decimals fuel env cb empty_world).2
        = Some (vs, fs) ->
      forall v, v ∈ vs ->
        exists p, v = [round (Pnt_X p) round_decimals;
                       round (Pnt_Y p) round_decimals;
                       round (Pnt_Z p) round_decimals]).
Proof.
  split.
  - intros fuel env cb w st w5 Hw.
    by apply face_walk_invariants in Hw as [(H1 & H2 & H3) _].
  - intros fuel env cb vs fs Hm v Hv.
    apply convert_written in Hm as (st & w5 & Hw & [= -> ->] & _); [|done].
    apply face_walk_invariants in Hw as [(H1 & H2 & H3) _].
    apply list_elem_of_lookup in Hv as [i Hi].
    destruct (H2 i v Hi) as (k & Hk & ->).
    destruct (H3 k Hk) as (p & ->). by exists p.
Qed.

End Mesh.

(** * The sequence of checkpoints *)

Section Checkpoints.

Context `{PyFloat}.
Variable round_decimals : Z.

Lemma without_errors_app evs1 evs2 :
  without_errors (evs1 ++ evs2) = without_errors evs1 ++ without_errors evs2.
Proof. apply List.filter_app. Qed.

Lemma reported_percents_app evs1 evs2 :
  reported_percents (evs1 ++ evs2) = reported_percents evs1 ++ reported_percents evs2.
Proof. apply omap_app. Qed.

Lemma without_errors_processing total fps :
  without_errors (map (fun fp => processing_event fp total) fps) =
  map (fun fp => processing_event fp total) fps.
Proof. induction fps as [|fp fps IH]; simpl; [done|]. by rewrite IH. Qed.

Lemma reported_percents_processing total fps :
  reported_percents (map (fun fp => processing_event fp total) fps) =
  map (fun fp => pct fp total) fps.
Proof. induction fps as [|fp fps IH]; simpl; [done|]. by rewrite IH. Qed.

(** Increasing face counts give non-decreasing percents. *)
Lemma pct_sorted total fps :
  (0 < total)%Z ->
  Forall (fun fp => 0 <= fp)%Z fps ->
  StronglySorted Z.lt fps ->
  StronglySorted Z.le (map (fun fp => pct fp total) fps).
Proof.
  intros Ht Hpos Hs. induction Hs as [|fp fps Hs IH Hall]; simpl.
  - constructor.
  - apply Forall_cons in Hpos as [Hfp Hpos]. constructor; [by apply IH|].
    apply Forall_map. rewrite Forall_forall in Hall. apply Forall_forall.
    intros fp' Hin. apply pct_mono; [done| |done].
    specialize (Hall fp' Hin). lia.
Qed.

(** The percents of a run: the four stage values, the processing
    values, and what follows the walk. *)
Lemma percents_sorted (P T : list Z) :
  StronglySorted Z.le P ->
  Forall (fun p => 12 <= p)%Z P ->
  T = [] \/ ((T = [90%Z] \/ T = [90%Z; 100%Z]) /\ Forall (fun p => p <= 90)%Z P) ->
  StronglySorted Z.le ([1; 5; 8; 12]%Z ++ P ++ T).
Proof.
  intros Hs Hlo HT.
  assert (HPT : StronglySorted Z.le (P ++ T) /\ Forall (fun p => 12 <= p)%Z (P ++ T)).
  { destruct HT as [-> | [HT Hhi]].
    - by rewrite app_nil_r.
    - split.
      + apply StronglySorted_app. split; [|split; [done|]].
        * intros x y Hx Hy. rewrite Forall_forall in Hhi. specialize (Hhi x Hx).
          destruct HT as [-> | ->].
          -- apply list_elem_of_singleton in Hy as ->. lia.
          -- apply elem_of_cons in Hy as [-> | Hy]; [lia|].
             apply list_elem_of_singleton in Hy as ->. lia.
        * destruct HT as [-> | ->]; repeat constructor; lia.
      + apply Forall_app. split; [done|].
        destruct HT as [-> | ->]; repeat constructor; lia. }
  destruct HPT as [Hsorted Hall].
  simpl. repeat constructor; try done; try lia;
    (eapply Forall_impl; [exact Hall|]; simpl; intros; lia).
Qed.

(** What the observer has received when the walk of a conversion stops. *)
Lemma face_walk_events fuel env f :
  (0 < count_faces (shape env) 0)%Z ->
  exists fps : list Z,
    events (face_walk round_decimals fuel env (Some f) empty_world).2 =
      [checkpoint 1 "starting" "Starting conversion";
       checkpoint 5 "loaded" "STEP file loaded";
       checkpoint 8 "meshing" "Starting tessellation";
       checkpoint 12 "meshed" "Tessellation complete"]
      ++ map (fun fp => processing_event fp (count_faces (shape env) 0)) fps /\
    StronglySorted Z.lt fps /\
    Forall (fun fp => 0 < fp)%Z fps /\
    (forall st,
        (face_walk round_decimals fuel env (Some f) empty_world).1 = Return st ->
        Forall (fun fp => fp <= count_faces (shape env) 0)%Z fps).
Proof.
  intros Ht. unfold face_walk.
  destruct (face_loop_trace round_decimals fuel (past_end env) f
              (count_faces (shape env) 0) (Explorer_init (shape env))
              initial_locals (world_before_walk (Some f) empty_world))
    as (fps & He & Hgt & Hs & _ & Hr).
  exists fps. split; [exact He|]. split; [done|]. split; [done|].
  intros st Hst. destruct (Hr st Hst) as [Hle _].
  assert (Hb : (face_processed st <= count_faces (shape env) 0)%Z).
  { destruct (face_loop _ _ _ _ _ _ _ _) as [o w5] eqn:El. simpl in Hst. subst o.
    destruct (decide (past_end env = PastEndRewinds)) as [Hpe|Hpe].
    - destruct (runs_off (shape env)) eqn:Hro.
      + exfalso. rewrite Hpe in El.
        eapply (face_loop_rewinding round_decimals fuel (Some f)
                  (count_faces (shape env) 0) (Explorer_init (shape env))
                  initial_locals (world_before_walk (Some f) empty_world));
          [done|done|]. by rewrite El.
      + apply face_loop_bounded in El; [|by right].
        rewrite count_faces_length. simpl in El. lia.
    - apply face_loop_bounded in El; [|by left].
      rewrite count_faces_length. simpl in El. lia. }
  eapply Forall_impl; [exact Hle|]. simpl. intros; lia.
Qed.

Ltac short_run :=
  unfold orderly_run;
  cbn [fst snd record_event progress_cb_of fmap option_fmap option_map events empty_world app head last];
  split; [simpl; repeat constructor; lia|];
  split; [intros ? [= <-]; eexists; split; [reflexivity|lia]|];
  split; [by intros ? [=]|];
  split; [|by intros ?];
  intros ? _;
  match goal with
  | |- exists evs' m, ?L = _ /\ _ => exists (removelast L)
  end; eexists; split; reflexivity.

(** The checkpoints of every run with an observer are orderly. *)
Lemma convert_orderly fuel env f :
  orderly_run (convert_step_to_glb round_decimals fuel env (Some f) empty_world).1
    (events (convert_step_to_glb round_decimals fuel env (Some f) empty_world).2).
Proof.
  rewrite convert_step_to_glb_eq.
  destruct (negb _); [short_run|].
  destruct (import_error env); [short_run|].
  rewrite convert_body_eq. cbv zeta.
  destruct (ReadFile env) as [e|status]; [short_run|].
  destruct (negb _); [short_run|].
  destruct (TransferRoots env); [short_run|].
  destruct (mesh_outcome env); [short_run|].
  destruct (_ =? 0)%Z eqn:Ez; [short_run|].
  assert (Ht : (0 < count_faces (shape env) 0)%Z).
  { apply Z.eqb_neq in Ez. rewrite count_faces_length in *. lia. }
  destruct (face_walk_events fuel env f Ht) as (fps & He & Hs & Hpos & Hb).
  set (total := count_faces (shape env) 0) in *.
  assert (Hsorted : StronglySorted Z.le (map (fun fp => pct fp total) fps)).
  { apply pct_sorted; [done| |done]. eapply Forall_impl; [exact Hpos|].
    simpl. intros; lia. }
  assert (Hlow : Forall (fun p => 12 <= p)%Z (map (fun fp => pct fp total) fps)).
  { apply Forall_map. eapply Forall_impl; [exact Hpos|]. simpl.
    intros fp Hfp. apply pct_lower; lia. }
  assert (Hhigh : forall st,
             (face_walk round_decimals fuel env (Some f) empty_world).1 = Return st ->
             Forall (fun p => p <= 90)%Z (map (fun fp => pct fp total) fps)).
  { intros st Hst. specialize (Hb st Hst). apply Forall_map.
    rewrite Forall_forall in Hb, Hpos. apply Forall_forall. intros fp Hin.
    simpl. apply pct_upper; [specialize (Hpos fp Hin); lia|by apply Hb|done]. }
  destruct (face_walk _ _ _ _ _) as [[st|b|] w5] eqn:Ew; cbn [fst snd] in *.
  - specialize (Hhigh st eq_refl).
    destruct (_ || _).
    + cbn [fst snd record_event progress_cb_of fmap option_fmap option_map events]. rewrite He.
      split; [|split; [|split; [|split]]].
      * rewrite !without_errors_app, !reported_percents_app,
          without_errors_processing, reported_percents_processing.
        apply (percents_sorted _ []); auto.
      * intros ev [= <-]. eexists; split; [reflexivity|lia].
      * by intros msg [=].
      * intros msg _. eexists _, _. split; [reflexivity|].
        by rewrite without_errors_app, without_errors_processing.
      * by intros ?.
    + destruct (export_glb _ _ _).
      * cbn [fst snd record_event progress_cb_of fmap option_fmap option_map events]. rewrite He.
        split; [|split; [|split; [|split]]].
        -- rewrite !without_errors_app, !reported_percents_app,
             without_errors_processing, reported_percents_processing.
           rewrite <- !app_assoc.
           apply (percents_sorted _ [90%Z]); auto.
        -- intros ev [= <-]. eexists; split; [reflexivity|lia].
        -- by intros msg [=].
        -- intros msg _. eexists _, _. split; [reflexivity|].
           by rewrite !without_errors_app, without_errors_processing.
        -- by intros ?.
      * cbn [fst snd record_event progress_cb_of fmap option_fmap option_map events]. rewrite He.
        split; [|split; [|split; [|split]]].
        -- rewrite !without_errors_app, !reported_percents_app,
             without_errors_processing, reported_percents_processing.
           rewrite <- !app_assoc.
           apply (percents_sorted _ [90%Z; 100%Z]); auto.
        -- intros ev [= <-]. eexists; split; [reflexivity|lia].
        -- intros msg [= <-]. apply last_snoc.
        -- by intros msg [=].
        -- by intros ?.
  - unfold face_walk in Ew. apply face_loop_raises_derived in Ew as [e ->].
    cbn [fst snd record_event progress_cb_of fmap option_fmap option_map events]. rewrite He.
    split; [|split; [|split; [|split]]].
    + rewrite !without_errors_app, !reported_percents_app,
        without_errors_processing, reported_percents_processing.
      apply (percents_sorted _ []); auto.
    + intros ev [= <-]. eexists; split; [reflexivity|lia].
    + by intros msg [=].
    + intros msg _. eexists _, _. split; [reflexivity|].
      by rewrite without_errors_app, without_errors_processing.
    + by intros ?.
  - rewrite He. split; [|split; [|split; [|split]]].
    + rewrite !without_errors_app, !reported_percents_app,
        without_errors_processing, reported_percents_processing.
      rewrite <- (app_nil_r (map _ fps)).
      apply (percents_sorted _ []); auto.
    + intros ev [= <-]. eexists; split; [reflexivity|lia].
    + by intros msg [=].
    + by intros msg [=].
    + by intros ?.
Qed.

(** C5.  The processing updates of a walk are those of an increasing
    list of face counts, each with the percent
    [12 + int((face_processed / total_faces) * (90 - 12))] as binary64
    arithmetic gives it; these percents never decrease along the walk, an
    update at [face_processed = total_faces] carries 90, and for up to
    [2^45] faces each percent is the value of the design document's
    formula over the rationals or one less. *)
Theorem processing_percent_is_the_binary64_value fuel pe f total exp st w :
  (0 < total)%Z ->
  (0 <= face_processed st)%Z ->
  exists fps : list Z,
    events (face_loop round_decimals fuel pe (Some f) total exp st w).2 =
      events w ++
      map (fun fp => checkpoint (pct fp total) "processing"
                       (processing_message fp total)) fps /\
    StronglySorted Z.lt fps /\
    StronglySorted Z.le (map (fun fp => pct fp total) fps) /\
    (forall fp, fp ∈ fps -> fp = total -> pct fp total = 90%Z) /\
    (forall fp, fp ∈ fps -> (fp <= total)%Z -> (total <= 2 ^ 45)%Z ->
                (spec_pct fp total - 1 <= pct fp total)%Z /\
                (pct fp total <= spec_pct fp total)%Z).
Proof.
  intros Ht Hst.
  destruct (face_loop_trace round_decimals fuel pe f total exp st w)
    as (fps & He & Hgt & Hs & _ & _).
  assert (Hpos : Forall (fun fp => 0 <= fp)%Z fps).
  { eapply Forall_impl; [exact Hgt|]. simpl. intros; lia. }
  exists fps. split; [exact He|]. split; [done|].
  split; [by apply pct_sorted|]. split.
  - intros fp _ ->. by apply pct_full.
  - intros fp Hin Hle Hbig. rewrite Forall_forall in Hpos.
    apply pct_close; auto.
Qed.

(** C6.  For every run with an observer: the percents of the checkpoints
    other than error checkpoints never decrease; the first checkpoint
    carries a percent of at most 1; a successful run ends with the
    checkpoint [(100, finished)]; a failed run ends with a checkpoint
    [(0, error)], the only error checkpoint of the run, so nothing follows
    it; and no exception leaves the conversion. *)
Theorem progress_is_monotone_up_to_the_error fuel env f :
  let r := convert_step_to_glb round_decimals fuel env (Some f) empty_world in
  StronglySorted Z.le (reported_percents (without_errors (events r.2))) /\
  (forall ev, head (events r.2) = Some ev ->
              exists p, percent ev = Some p /\ (p <= 1)%Z) /\
  (forall msg, r.1 = Return (true, msg) ->
               last (events r.2) = Some (checkpoint 100 "finished" msg)) /\
  (forall msg, r.1 = Return (false, msg) ->
               exists evs m, events r.2 = evs ++ [checkpoint 0 "error" m] /\
                             without_errors evs = evs) /\
  (forall e, r.1 <> Raise e).
Proof. apply convert_orderly. Qed.

End Checkpoints.

(** * How a conversion ends *)

Section Outcome.

Context `{PyFloat}.
Variable round_decimals : Z.

Lemma append_assoc (s1 s2 s3 : string) : (s1 +:+ s2) +:+ s3 = s1 +:+ (s2 +:+ s3).
Proof.
  induction s1 as [|c s1 IH]; [done|].
  change (String c ((s1 +:+ s2) +:+ s3) = String c (s1 +:+ (s2 +:+ s3))).
  by rewrite IH.
Qed.

Lemma append_nil_r (s : string) : s +:+ "" = s.
Proof.
  induction s as [|c s IH]; [done|].
  change (String c (s +:+ "") = String c s). by rewrite IH.
Qed.

Lemma process_triangulation_tri_count t trsf st st' :
  tri_count_ok st ->
  process_triangulation round_decimals t trsf st = inr st' ->
  tri_count_ok st'.
Proof.
  apply (process_triangulation_preserves round_decimals tri_count_ok).
  - intros s p Hs. unfold insert_node. by destruct (get (vertex_map s) _).
  - intros s tri [[ca cb] cc] Hs _. unfold emit_triangle, tri_count_ok in *.
    destruct (get (vertex_map s) ca), (get (vertex_map s) cb), (get (vertex_map s) cc);
      cbn [resolve append_face append_vertex tri_count faces];
      rewrite length_app; simpl; lia.
Qed.

Lemma face_walk_tri_count fuel env cb w st w5 :
  face_walk round_decimals fuel env cb w = (Return st, w5) -> tri_count_ok st.
Proof.
  unfold face_walk.
  apply (face_loop_preserves round_decimals tri_count_ok).
  - by intros s n.
  - intros. by eapply process_triangulation_tri_count.
  - done.
Qed.

(** The three ways a conversion can end: a failure with its error
    checkpoint, an unfinished walk, or a written file. *)
Lemma convert_outcome fuel env cb w :
  let r := convert_step_to_glb round_decimals fuel env cb w in
  (exists msg m rest w0,
      r = (Return (false, msg), record_event cb (checkpoint 0 "error" m) w0) /\
      written w0 = written w /\ msg = m +:+ rest) \/
  (exists w0, r = (OutOfFuel, w0) /\ written w0 = written w /\
              face_walk round_decimals fuel env cb w = (OutOfFuel, w0)) \/
  (exists st w5,
      face_walk round_decimals fuel env cb w = (Return st, w5) /\
      vertices st <> [] /\ faces st <> [] /\
      r = (Return (true, converted_message (count_faces (shape env) 0) st),
           record_event cb
             (checkpoint 100 "finished"
                (converted_message (count_faces (shape env) 0) st))
             {| events := events (record_event cb
                            (checkpoint 90 "exporting" "Preparing to export GLB") w5);
                written := Some (vertices st, faces st) |})).
Proof.
  cbv zeta. rewrite convert_step_to_glb_eq.
  destruct (negb _).
  { left. eexists _, _, "", w. by rewrite append_nil_r. }
  destruct (import_error env) as [e|].
  { left. eexists _, _, " Install pythonocc-core and trimesh.", w.
    split; [done|]. split; [done|]. rewrite !append_assoc. reflexivity. }
  rewrite convert_body_eq. cbv zeta.
  destruct (ReadFile env) as [e|status].
  { left. eexists _, _, _, _. split; [done|].
    split; [by rewrite written_record_event|]. by rewrite append_assoc. }
  destruct (negb _).
  { left. eexists _, _, "", _. split; [done|].
    split; [by rewrite written_record_event|]. by rewrite append_nil_r. }
  destruct (TransferRoots env) as [e|].
  { left. eexists _, _, _, _. split; [done|].
    split; [by rewrite !written_record_event|]. by rewrite append_assoc. }
  destruct (mesh_outcome env) as [e|].
  { left. eexists _, _, _, _. split; [done|].
    split; [by rewrite !written_record_event|]. by rewrite append_assoc. }
  destruct (_ =? 0)%Z.
  { left. eexists _, _, " file.", _. split; [done|].
    split; [by rewrite written_world_before_walk|reflexivity]. }
  pose proof (face_loop_written round_decimals fuel (past_end env) cb
                (count_faces (shape env) 0) (Explorer_init (shape env))
                initial_locals (world_before_walk cb w)) as Hfw.
  rewrite written_world_before_walk in Hfw.
  fold (face_walk round_decimals fuel env cb w) in Hfw.
  destruct (face_walk _ _ _ _ _) as [[st|b|] w5] eqn:Ew; cbn [snd] in Hfw.
  - destruct (is_empty (vertices st)) eqn:Ev; cbn [orb].
    { left. eexists _, _, "", _. split; [done|]. split; [done|].
      by rewrite append_nil_r. }
    destruct (is_empty (faces st)) eqn:Ef.
    { left. eexists _, _, "", _. split; [done|]. split; [done|].
      by rewrite append_nil_r. }
    destruct (export_glb _ _ _) as [e|].
    + left. eexists _, _, _, _. split; [done|].
      split; [by rewrite written_record_event|]. by rewrite append_assoc.
    + right. right. exists st, w5. split; [done|].
      split; [intros E; by rewrite E in Ev|].
      split; [intros E; by rewrite E in Ef|]. done.
  - unfold face_walk in Ew. apply face_loop_raises_derived in Ew as [e ->].
    left. eexists _, _, _, _. split; [done|]. split; [done|].
    by rewrite append_assoc.
  - right. left. by exists w5.
Qed.

(** X2.  A failing conversion with an observer ends with the error
    checkpoint, and the message of that checkpoint is the beginning of
    the message the conversion returns. *)
Theorem error_checkpoint_starts_the_message fuel env f w msg :
  (convert_step_to_glb round_decimals fuel env (Some f) w).1 = Return (false, msg) ->
  exists m rest,
    last (events (convert_step_to_glb round_decimals fuel env (Some f) w).2) =
      Some (checkpoint 0 "error" m) /\
    msg = m +:+ rest.
Proof.
  destruct (convert_outcome fuel env (Some f) w)
    as [(msg' & m & rest & w0 & -> & _ & Hm)
       |[(w0 & -> & _) | (st & w5 & _ & _ & _ & ->)]]; cbn [fst snd]; [|done..].
  intros [= <-]. exists m, rest. split; [|done].
  cbn [record_event progress_cb_of fmap option_fmap option_map events]. apply last_snoc.
Qed.

(** X3.  The message of a successful conversion reports the number of
    faces of the shape, whether or not the walk stopped at each of them,
    and the numbers of triangles and vertices of the written mesh. *)
Theorem success_message_counts fuel env cb w msg :
  written w = None ->
  (convert_step_to_glb round_decimals fuel env cb w).1 = Return (true, msg) ->
  exists vs fs,
    written (convert_step_to_glb round_decimals fuel env cb w).2 = Some (vs, fs) /\
    msg = "Converted: faces=" +:+ pretty (Z.of_nat (length (shape env)))
            +:+ ", triangles=" +:+ pretty (Z.of_nat (length fs))
            +:+ ", verts=" +:+ pretty (length vs).
Proof.
  intros Hw.
  destruct (convert_outcome fuel env cb w)
    as [(msg' & m & rest & w0 & -> & _ & Hm)
       |[(w0 & -> & _) | (st & w5 & Hwalk & _ & _ & ->)]]; cbn [fst snd]; [done..|].
  intros [= <-]. exists (vertices st), (faces st).
  split; [by rewrite written_record_event|].
  apply face_walk_tri_count in Hwalk. unfold converted_message.
  rewrite Hwalk, count_faces_length. by rewrite Z.add_0_l.
Qed.

End Outcome.

(** * The walk as a fold *)

Section Walk.

Context `{PyFloat}.
Variable round_decimals : Z.

Lemma visited_length (rest : list TopoDS_Face) : length (visited rest) <= length rest.
Proof.
  assert (Hn : forall n (l : list TopoDS_Face),
             length l <= n -> length (visited l) <= length l).
  { intros n. induction n as [|n IH]; intros [|face r] Hl; simpl in *; try lia.
    destruct (Triangulation face).
    - specialize (IH r). lia.
    - destruct r as [|f2 r2]; simpl in *; [lia|].
      specialize (IH r2). lia. }
  by apply (Hn (length rest)).
Qed.

(** With one unit of fuel per face, and unless the walk steps past the
    end of an explorer that does not stay exhausted, the walk is the
    fold of the per-face work over the visited faces. *)
Lemma face_loop_is_fold fuel pe cb total exp st w :
  length (exp_rest exp) <= fuel ->
  runs_off (exp_rest exp) = false \/ pe = PastEndStays ->
  (face_loop round_decimals fuel pe cb total exp st w).1 =
  match process_faces round_decimals (visited (exp_rest exp)) st with
  | inr st' => Return st'
  | inl e => Raise e
  end.
Proof.
  revert exp st w. induction fuel as [|fuel IH]; intros exp st w Hlen Hc.
  - destruct (exp_rest exp) as [|face r] eqn:E; [|simpl in Hlen; lia].
    by rewrite face_loop_done.
  - destruct (exp_rest exp) as [|face r] eqn:E.
    { by rewrite face_loop_done. }
    erewrite face_loop_step by done. cbv zeta.
    unfold process_faces. cbn [visited rfold]. unfold process_face at 1.
    cbn [length] in Hlen. simpl in Hc.
    destruct (Triangulation face) as [t|].
    + destruct (process_triangulation _ _ _ _) as [e|st2]; [done|].
      cbn [rbind]. apply IH; [simpl; lia|done].
    + cbn [rbind]. destruct r as [|f2 r2].
      * destruct Hc as [Hc | ->]; [done|]. cbn [Next exp_rest].
        by rewrite face_loop_done.
      * cbn [Next exp_rest]. apply IH; [simpl in *; lia|done].
Qed.

(** X4.  In a conversion whose explorer has one unit of fuel per face,
    the processing walk ends, and it ends as the fold of the per-face
    work over the visited faces: every face that follows a face without
    triangulation is left out.  This holds unless the walk steps past
    the last face of an explorer that does not stay exhausted. *)
Theorem walk_folds_over_visited_faces fuel env cb w :
  length (shape env) <= fuel ->
  runs_off (shape env) = false \/ past_end env = PastEndStays ->
  (face_walk round_decimals fuel env cb w).1 =
    match process_faces round_decimals (visited (shape env)) initial_locals with
    | inr st => Return st
    | inl e => Raise e
    end /\
  (forall st, (face_walk round_decimals fuel env cb w).1 = Return st ->
              face_processed st = Z.of_nat (length (visited (shape env))) /\
              (face_processed st <= count_faces (shape env) 0)%Z).
Proof.
  intros Hlen Hc.
  assert (Hfold : (face_walk round_decimals fuel env cb w).1 =
    match process_faces round_decimals (visited (shape env)) initial_locals with
    | inr st => Return st
    | inl e => Raise e
    end) by by apply face_loop_is_fold.
  split; [done|]. intros st Hst. rewrite Hst in Hfold.
  destruct (process_faces _ _ _) as [e|st'] eqn:Ef; [done|].
  injection Hfold as <-.
  assert (Hfp : forall fs s s',
             process_faces round_decimals fs s = inr s' ->
             face_processed s' = (face_processed s + Z.of_nat (length fs))%Z).
  { clear. intros fs. induction fs as [|face fs IH]; intros s s'.
    - intros [= <-]. simpl. lia.
    - unfold process_faces. cbn [rfold]. unfold process_face at 1.
      destruct (Triangulation face) as [t|].
      + destruct (process_triangulation _ _ _ _) as [e|s2] eqn:Ep; [done|].
        cbn [rbind]. intros Hr. apply IH in Hr.
        apply process_triangulation_face_processed in Ep.
        cbn [set_face_processed face_processed] in Ep. cbn [length]. lia.
      + cbn [rbind]. intros Hr. apply IH in Hr.
        cbn [set_face_processed face_processed] in Hr. cbn [length]. lia. }
  apply Hfp in Ef. cbn [initial_locals face_processed] in Ef.
  split; [lia|]. rewrite count_faces_length.
  pose proof (visited_length (shape env)). lia.
Qed.

(** Under the same conditions the conversion with an observer comes back
    with a success flag and a message. *)
Lemma observed_conversion_returns fuel env cb w :
  length (shape env) <= fuel ->
  runs_off (shape env) = false \/ past_end env = PastEndStays ->
  exists ok msg,
    (convert_step_to_glb round_decimals fuel env cb w).1 = Return (ok, msg).
Proof.
  intros Hlen Hc.
  destruct (convert_outcome round_decimals fuel env cb w)
    as [(msg & m & rest & w0 & -> & _)
       |[(w0 & _ & _ & Hw) | (st & w5 & _ & _ & _ & ->)]]; [by eexists _, _| |by eexists _, _].
  exfalso.
  pose proof (face_loop_is_fold fuel (past_end env) cb (count_faces (shape env) 0)
                (Explorer_init (shape env)) initial_locals
                (world_before_walk cb w) Hlen Hc) as Hfold.
  unfold face_walk in Hw. rewrite Hw in Hfold. cbn [fst] in Hfold.
  by destruct (process_faces _ _ _).
Qed.

(** X6.  When the explorer re-enters the shape after its last face, a
    shape whose walk steps past the end keeps the walk going for ever:
    whatever the fuel, the walk does not return and the conversion does
    not succeed. *)
Theorem rewinding_walk_never_returns fuel env cb w :
  past_end env = PastEndRewinds ->
  runs_off (shape env) = true ->
  (forall st, (face_walk round_decimals fuel env cb w).1 <> Return st) /\
  (forall msg,
      (convert_step_to_glb round_decimals fuel env cb w).1 <> Return (true, msg)).
Proof.
  intros Hpe Hro.
  assert (Hwalk : forall st, (face_walk round_decimals fuel env cb w).1 <> Return st).
  { intros st. unfold face_walk. rewrite Hpe. by apply face_loop_rewinding. }
  split; [done|]. intros msg.
  destruct (convert_outcome round_decimals fuel env cb w)
    as [(msg' & m & rest & w0 & -> & _)
       |[(w0 & -> & _) | (st & w5 & Hw & _)]]; [done|done|].
  exfalso. apply (Hwalk st). by rewrite Hw.
Qed.

End Walk.

(** * Callables that raise what [except Exception] lets through *)

Section Interrupts.

Context `{PyFloat}.
Variable round_decimals : Z.

Implicit Types progress_callback : ProgressCB.

Lemma same_or_interrupted_refl {A} (m : M A) : same_or_interrupted m m.
Proof. intros w. by left. Qed.

Lemma same_or_interrupted_bind {A B} (m1 m2 : M A) (k1 k2 : A -> M B) :
  same_or_interrupted m1 m2 ->
  (forall a, same_or_interrupted (k1 a) (k2 a)) ->
  same_or_interrupted (m1 ≫= k1) (m2 ≫= k2).
Proof.
  intros Hm Hk w. unfold mbind, M_bind, bind.
  destruct (Hm w) as [-> | (b & w' & -> & Hb)].
  - destruct (m2 w) as [[a|e|] w']; [apply Hk|by left..].
  - right. by exists b, w'.
Qed.

Lemma same_or_interrupted_try {A} (m1 m2 : M A) (h1 h2 : Exception -> M A) :
  same_or_interrupted m1 m2 ->
  (forall e, same_or_interrupted (h1 e) (h2 e)) ->
  same_or_interrupted (try_except m1 h1) (try_except m2 h2).
Proof.
  intros Hm Hh w. unfold try_except.
  destruct (Hm w) as [-> | (b & w' & -> & Hb)].
  - destruct (m2 w) as [[a|[e| | |]|] w']; [by left|apply Hh|by left..].
  - right. exists b, w'. by destruct b.
Qed.

(** A checkpoint discards what is derived from [Exception] and lets the
    rest out. *)
Lemma safe_call_progress_observed progress_callback p s m :
  same_or_interrupted (_safe_call_progress progress_callback p s m)
                      (_safe_call_progress (observed progress_callback) p s m).
Proof.
  intros w. destruct progress_callback as [g|]; [|by left].
  unfold _safe_call_progress, try_except, call_observer, observed, observer_of.
  cbn. unfold callable_of.
  destruct (g (events w) _) as [[e| | |]|]; cbn; first [by left | right; by eexists _, _].
Qed.

Lemma face_loop_observed fuel pe progress_callback total exp st :
  same_or_interrupted
    (face_loop round_decimals fuel pe progress_callback total exp st)
    (face_loop round_decimals fuel pe (observed progress_callback) total exp st).
Proof.
  revert exp st. induction fuel as [|fuel IH]; intros exp st; simpl.
  - apply same_or_interrupted_refl.
  - destruct (exp_rest exp) as [|face r]; [apply same_or_interrupted_refl|].
    destruct (Triangulation face) as [t|].
    + apply same_or_interrupted_bind; [apply same_or_interrupted_refl|].
      intros st2. apply same_or_interrupted_bind.
      * destruct (update_due _ _);
          [apply safe_call_progress_observed|apply same_or_interrupted_refl].
      * intros _. apply same_or_interrupted_bind;
          [apply same_or_interrupted_refl|]. intros exp2. apply IH.
    + apply same_or_interrupted_bind; [apply same_or_interrupted_refl|].
      intros exp1. apply same_or_interrupted_bind;
        [apply same_or_interrupted_refl|]. intros exp2. apply IH.
Qed.

(** Stage by stage through a computation and its twin. *)
Local Ltac stages :=
  repeat first
    [ apply safe_call_progress_observed
    | apply face_loop_observed
    | apply same_or_interrupted_refl
    | apply same_or_interrupted_bind; [|intros ?]
    | apply same_or_interrupted_try; [|intros ?]
    | match goal with
      | |- same_or_interrupted (if ?c then _ else _) _ => destruct c
      | |- same_or_interrupted (match ?c with _ => _ end) _ => destruct c
      end ].

Lemma convert_body_observed fuel env progress_callback :
  same_or_interrupted
    (convert_body round_decimals fuel env progress_callback)
    (convert_body round_decimals fuel env (observed progress_callback)).
Proof. unfold convert_body. by stages. Qed.

(** A conversion with any callable is the conversion with the observer
    the callable amounts to, unless the callable lets out an exception
    that is not derived from [Exception]. *)
Lemma convert_step_to_glb_observed fuel env progress_callback :
  same_or_interrupted
    (convert_step_to_glb round_decimals fuel env progress_callback)
    (convert_step_to_glb round_decimals fuel env (observed progress_callback)).
Proof.
  unfold convert_step_to_glb.
  destruct (negb _); [by stages|].
  destruct (import_error env); [by stages|].
  apply same_or_interrupted_try; [apply convert_body_observed|].
  intros e. by stages.
Qed.


(** X5.  With one loop turn per face at hand, and unless the walk steps
    past the last face of an explorer that does not stay exhausted, the
    conversion ends whatever the callable does: it returns a success flag
    and a message, or an exception leaves it. *)
Theorem conversion_ends fuel env progress_callback w :
  length (shape env) <= fuel ->
  runs_off (shape env) = false \/ past_end env = PastEndStays ->
  (exists ok msg,
      (convert_step_to_glb round_decimals fuel env progress_callback w).1 =
        Return (ok, msg)) \/
  (exists b,
      (convert_step_to_glb round_decimals fuel env progress_callback w).1 = Raise b).
Proof.
  intros Hlen Hc.
  destruct (convert_step_to_glb_observed fuel env progress_callback w)
    as [-> | (b & w' & -> & Hb)]; [|right; by exists b].
  left. by apply observed_conversion_returns.
Qed.

End Interrupts.

(** * Deduplication over steady faces *)

Section Dedup.

Context `{PyFloat}.
Variable round_decimals : Z.

Local Set Warnings "-clear-no-such-hyp".
















End Dedup.

(** * More on the walk and its stages *)

Section Stages.

Context `{PyFloat}.
Variable round_decimals : Z.

Lemma grown_from_refl st : grown_from st st.
Proof. by split. Qed.

Lemma append_vertex_grown st0 st c :
  grown_from st0 st -> grown_from st0 (append_vertex st c).
Proof.
  intros [Hv Hf]. split; [|done]. cbn [append_vertex vertices].
  etrans; [exact Hv|]. by apply prefix_app_r.
Qed.

Lemma process_triangulation_grown st0 t trsf st st' :
  grown_from st0 st ->
  process_triangulation round_decimals t trsf st = inr st' ->
  grown_from st0 st'.
Proof.
  apply (process_triangulation_preserves round_decimals (grown_from st0)).
  - intros s p Hs. unfold insert_node.
    destruct (get (vertex_map s) _); [done|]. by apply append_vertex_grown.
  - intros s tri [[ca cb] cc] Hs _. unfold emit_triangle.
    assert (Hr : forall i c s1, grown_from st0 s1 -> grown_from st0 (resolve i c s1).2).
    { intros [i|] c s1 Hs1; simpl; [done|]. by apply append_vertex_grown. }
    pose proof (Hr (get (vertex_map s) ca) ca s Hs) as H1.
    destruct (resolve (get (vertex_map s) ca) ca s) as [ia s1]; simpl in H1.
    pose proof (Hr (get (vertex_map s) cb) cb s1 H1) as H2.
    destruct (resolve (get (vertex_map s) cb) cb s1) as [ib s2]; simpl in H2.
    pose proof (Hr (get (vertex_map s) cc) cc s2 H2) as H3.
    destruct (resolve (get (vertex_map s) cc) cc s2) as [ic s3]; simpl in H3.
    destruct H3 as [Hv Hf]. split; [done|]. cbn [append_face faces].
    etrans; [exact Hf|]. by apply prefix_app_r.
Qed.

(** X9.  The containers only grow during a walk: the vertex list and
    the triangle list at any earlier point begin the lists at the end,
    so an index keeps denoting the same vertex. *)
Theorem containers_are_append_only fuel pe cb total exp st w st' w' :
  face_loop round_decimals fuel pe cb total exp st w = (Return st', w') ->
  vertices st `prefix_of` vertices st' /\
  faces st `prefix_of` faces st' /\
  (forall i v, vertices st !! i = Some v -> vertices st' !! i = Some v).
Proof.
  intros Hl.
  assert (Hg : grown_from st st').
  { eapply (face_loop_preserves round_decimals (grown_from st));
      [| |apply grown_from_refl|exact Hl].
    - by intros s n.
    - intros. by eapply process_triangulation_grown. }
  destruct Hg as [Hv Hf]. split; [done|]. split; [done|].
  intros i v Hi. by eapply prefix_lookup_Some.
Qed.

(** X10.  A [TypeError] from the four-argument mesher call is not an
    error of the conversion: the run goes on exactly as if the
    two-argument call had been the first one.  Any other exception of the
    mesher ends the conversion with a failure. *)
Theorem mesher_type_error_falls_back fuel env cb w :
  (forall e, BRepMesh_IncrementalMesh env = Some e -> is_TypeError e = true ->
     BRepMesh_IncrementalMesh_fallback env = None ->
     convert_step_to_glb round_decimals fuel env cb w =
     convert_step_to_glb round_decimals fuel (with_fallback_mesher env) cb w) /\
  (forall e, BRepMesh_IncrementalMesh env = Some e -> is_TypeError e = false ->
     src_exists env = true -> import_error env = None ->
     ReadFile env = inr IFSelect_RetDone -> TransferRoots env = None ->
     (convert_step_to_glb round_decimals fuel env cb w).1 =
     Return (false, "Conversion exception: " +:+ str e +:+ "
" +:+ format_exc env e)).
Proof.
  split.
  - intros e He Ht Hf.
    rewrite !convert_step_to_glb_eq, !convert_body_eq.
    unfold face_walk, mesh_outcome.
    cbn [with_fallback_mesher src src_exists import_error ReadFile TransferRoots
         BRepMesh_IncrementalMesh BRepMesh_IncrementalMesh_fallback shape
         past_end export_glb format_exc].
    by rewrite He, Ht, Hf.
  - intros e He Ht Hs Hi Hr Htr.
    rewrite convert_step_to_glb_eq, convert_body_eq. unfold mesh_outcome.
    rewrite Hs, Hi, Hr, Htr, He, Ht. reflexivity.
Qed.

Lemma seqZ_snoc (m n : Z) :
  (0 < n)%Z -> seqZ m n = seqZ m (n - 1) ++ [(m + n - 1)%Z].
Proof.
  intros Hn. replace n with (Z.of_nat (S (Z.to_nat (n - 1)))) at 1 by lia.
  rewrite seqZ_S. f_equal; [f_equal; lia|f_equal; lia].
Qed.

(** X11.  When every face of the shape has a triangulation, a walk that
    returns has stopped at every face, and the observer has received,
    after the four stage checkpoints, one update for each count that is a
    multiple of the cadence or the total, in order, the last of them at
    90 percent for the final face. *)
Theorem triangulated_shape_is_walked_in_full fuel env f st w5 :
  Forall (fun face => is_Some (Triangulation face)) (shape env) ->
  shape env <> [] ->
  face_walk round_decimals fuel env (Some f) empty_world = (Return st, w5) ->
  let total := count_faces (shape env) 0 in
  face_processed st = total /\
  events w5 =
    [checkpoint 1 "starting" "Starting conversion";
     checkpoint 5 "loaded" "STEP file loaded";
     checkpoint 8 "meshing" "Starting tessellation";
     checkpoint 12 "meshed" "Tessellation complete"]
    ++ map (fun fp => processing_event fp total)
         (List.filter (fun fp => update_due fp total) (seqZ 1 total)) /\
  last (events w5) = Some (checkpoint 90 "processing" (processing_message total total)).
Proof.
  intros Hall Hne Hw. cbv zeta. unfold face_walk in Hw.
  apply face_loop_triangulated in Hw as [Hfp Hev]; [|done].
  cbn [Explorer_init exp_rest initial_locals face_processed] in Hfp, Hev.
  rewrite (count_faces_length (shape env) 0) in *. rewrite !Z.add_0_l in *.
  split; [done|]. split; [exact Hev|]. rewrite Hev.
  assert (Hpos : (0 < Z.of_nat (length (shape env)))%Z).
  { destruct (shape env); [done|]. simpl. lia. }
  set (n := Z.of_nat (length (shape env))) in *.
  rewrite (seqZ_snoc 1 n) by done. rewrite List.filter_app. cbn [List.filter].
  replace (1 + n - 1)%Z with n by lia.
  assert (Hdue : update_due n n = true).
  { unfold update_due. by rewrite Z.eqb_refl, orb_true_r. }
  rewrite Hdue, map_app, !app_assoc. cbn [map]. rewrite last_snoc.
  unfold processing_event, checkpoint. by rewrite pct_full.
Qed.

End Stages.

(** * The cadence of the updates *)

Section Cadence.

Import Binary64 Binary64Facts.
Local Open Scope Q_scope.

(** An integer below [2^53] is a double. *)
Lemma RN_exact_int (k : Z) :
  (0 < k)%Z -> (k < 2 ^ 53)%Z -> RN (inject_Z k) == inject_Z k.
Proof.
  intros Hk Hbig.
  pose proof (inject_Z_pos k Hk) as Hx.
  pose proof (Z.log2_spec k Hk) as [Hl1 Hl2].
  pose proof (Z.log2_nonneg k) as He0.
  set (e := Z.log2 k) in *.
  assert (He52 : (e <= 52)%Z).
  { assert (2 ^ e < 2 ^ 53)%Z by lia.
    apply Z.pow_lt_mono_r_iff in H; lia. }
  assert (Hb : binade (inject_Z k) = e).
  { apply binade_unique.
    - rewrite <- pow2_inject by lia. by rewrite <- Zle_Qle.
    - rewrite <- pow2_inject by lia. rewrite <- Zlt_Qlt.
      by replace (e + 1)%Z with (Z.succ e) by lia. }
  assert (Hone : pow2 (52 - e) * pow2 (e - 52) == 1).
  { rewrite <- pow2_add. by replace (52 - e + (e - 52))%Z with 0%Z by lia. }
  assert (Hscaled : inject_Z k / pow2 (e - 52) == inject_Z (k * 2 ^ (52 - e))).
  { assert (Hinv : / pow2 (e - 52) == pow2 (52 - e)).
    { unfold pow2. replace (52 - e)%Z with (- (e - 52))%Z by lia.
      by rewrite Qpower_opp. }
    unfold Qdiv. rewrite Hinv, inject_Z_mult, pow2_inject by lia. reflexivity. }
  unfold RN. assert (Hc : Qcompare (inject_Z k) 0 = Gt) by by apply Qgt_alt.
  rewrite Hc. unfold RN_pos, ulp. rewrite Hb.
  rewrite (round_half_even_proper _ _ Hscaled), round_half_even_Z.
  rewrite inject_Z_mult, pow2_inject by lia.
  rewrite <- Qmult_assoc, Hone. ring.
Qed.

(** X12.  Up to [2^45] faces the cadence computed in double precision
    is the ceiling of a hundredth of the face count, and at least 1: one
    update per face up to 100 faces. *)
Theorem update_every_is_the_ceiling (t : Z) :
  (0 < t)%Z -> (t <= 2 ^ 45)%Z ->
  update_every t = Z.max 1 ((t + 99) / 100) /\
  ((t <= 100)%Z -> update_every t = 1%Z).
Proof.
  intros Ht Hbig.
  assert (Hmain : update_every t = Z.max 1 ((t + 99) / 100)).
  { unfold update_every, math_ceil. f_equal.
    pose proof (Z_div_mod_eq_full (t + 99) 100) as Hdm.
    pose proof (Z.mod_pos_bound (t + 99) 100 eq_refl) as Hmod.
    set (c := ((t + 99) / 100)%Z) in *.
    assert (Hc1 : (100 * (c - 1) < t)%Z) by lia.
    assert (Hc2 : (t <= 100 * c)%Z) by lia.
    assert (Hcpos : (0 < c)%Z) by lia.
    assert (Hx0 : 0 <= inject_Z t / inject_Z 100).
    { apply quotient_nonneg; lia. }
    assert (Hxc : inject_Z t / inject_Z 100 <= inject_Z c).
    { apply Qle_shift_div_r; [done|]. rewrite <- inject_Z_mult, <- Zle_Qle. lia. }
    assert (Hxl : inject_Z (100 * (c - 1) + 1) / inject_Z 100
                  <= inject_Z t / inject_Z 100).
    { apply quotient_mono; lia. }
    assert (Hxbig : inject_Z t / inject_Z 100 <= inject_Z (2 ^ 45)).
    { apply Qle_shift_div_r; [done|]. rewrite <- inject_Z_mult, <- Zle_Qle. lia. }
    pose proof (RN_mono _ _ Hx0 Hxc) as Hup.
    rewrite RN_exact_int in Hup by lia.
    pose proof (RN_error _ Hx0) as [Hlow _].
    fold (int_truediv t 100) in Hup, Hlow.
    pose proof (Qle_ceiling (int_truediv t 100)) as Hq1.
    pose proof (Qceiling_lt (int_truediv t 100)) as Hq2.
    assert (Hgt : inject_Z (c - 1) < int_truediv t 100).
    { change (pow2 (-53)) with (1 # 9007199254740992) in Hlow.
      change (inject_Z (2 ^ 45)) with (35184372088832 # 1) in Hxbig.
      assert (Hxl' : inject_Z (c - 1) + (1 # 100) <= inject_Z t / inject_Z 100).
      { eapply Qle_trans; [|exact Hxl].
        rewrite inject_Z_plus, inject_Z_mult.
        change (inject_Z 100) with (100 # 1). change (inject_Z 1) with 1.
        apply Qle_shift_div_l; [reflexivity|]. lra. }
      lra. }
    assert (H1 : (c - 1 < Qceiling (int_truediv t 100))%Z).
    { rewrite Zlt_Qlt. lra. }
    assert (H2 : (Qceiling (int_truediv t 100) - 1 < c)%Z).
    { rewrite Zlt_Qlt. lra. }
    lia. }
  split; [done|]. intros Hle. rewrite Hmain.
  assert (((t + 99) / 100 = 1)%Z).
  { symmetry. apply Z.div_unique with (r := (t - 1)%Z); lia. }
  lia.
Qed.

(** X13.  The percent of a processing update lies between the 12 of
    the meshed checkpoint and the 90 of the exporting checkpoint, whatever
    the rounding of the division and of the product does: it is 12 for a
    count of zero, 90 for the full count, and in between otherwise. *)
Theorem processing_percent_stays_in_range (fp t : Z) :
  (0 <= fp)%Z -> (fp <= t)%Z -> (0 < t)%Z ->
  (12 <= pct fp t)%Z /\ (pct fp t <= 90)%Z /\
  pct 0 t = 12%Z /\ pct t t = 90%Z.
Proof.
  intros Hfp Hle Ht.
  split; [by apply pct_lower|]. split; [by apply pct_upper|].
  split; [|by apply pct_full].
  unfold pct, float_mul, int_truediv.
  assert (E0 : inject_Z 0 / inject_Z t == 0) by (unfold Qdiv; ring).
  assert (E1 : RN (inject_Z 0 / inject_Z t) == 0).
  { rewrite (RN_proper _ _ E0). reflexivity. }
  assert (E2 : RN (inject_Z 0 / inject_Z t) * inject_Z (90 - 12) == 0).
  { rewrite E1. ring. }
  assert (E3 : RN (RN (inject_Z 0 / inject_Z t) * inject_Z (90 - 12)) == 0).
  { rewrite (RN_proper _ _ E2). reflexivity. }
  rewrite py_int_nonneg by (rewrite E3; done).
  by rewrite (Qfloor_comp _ _ E3).
Qed.

End Cadence.

(** * Properties of the web front end *)

Section SafeFilenameFacts.

Import App.

Variable isalnum : N -> bool.

(** Stripping on the left removes a run of underscores and leaves a
    string that does not begin with one. *)
Lemma lstrip_spec (s : pystr) :
  exists k, s = replicate k 95%N ++ lstrip_underscores s /\
            head (lstrip_underscores s) <> Some 95%N.
Proof.
  induction s as [|c s (k & Hs & Hh)]; simpl.
  - by exists 0.
  - destruct (N.eqb_spec c 95) as [-> | Hc].
    + exists (S k). split; [|done]. simpl. by rewrite <- Hs.
    + exists 0. split; [done|]. simpl. congruence.
Qed.

Lemma rstrip_spec (s : pystr) :
  exists k, s = rstrip_underscores s ++ replicate k 95%N /\
            last (rstrip_underscores s) <> Some 95%N.
Proof.
  unfold rstrip_underscores.
  destruct (lstrip_spec (reverse s)) as (k & Hs & Hh). exists k. split.
  - apply (f_equal reverse) in Hs.
    rewrite reverse_involutive, reverse_app, reverse_replicate in Hs. exact Hs.
  - by rewrite last_reverse.
Qed.

Lemma strip_spec (s : pystr) :
  exists k1 k2,
    s = replicate k1 95%N ++ strip_underscores s ++ replicate k2 95%N /\
    head (strip_underscores s) <> Some 95%N /\
    last (strip_underscores s) <> Some 95%N.
Proof.
  unfold strip_underscores.
  destruct (lstrip_spec s) as (k1 & Hs & Hh).
  destruct (rstrip_spec (lstrip_underscores s)) as (k2 & Hl & Hla).
  exists k1, k2. split; [by rewrite <- Hl|]. split; [|done].
  destruct (rstrip_underscores (lstrip_underscores s)) as [|c r] eqn:E; [done|].
  rewrite Hl in Hh. by simpl in *.
Qed.

Lemma lstrip_id (s : pystr) : head s <> Some 95%N -> lstrip_underscores s = s.
Proof.
  destruct s as [|c s]; [done|]. simpl. intros Hh.
  destruct (N.eqb_spec c 95) as [-> | Hc]; [done|done].
Qed.

Lemma strip_id (s : pystr) :
  head s <> Some 95%N -> last s <> Some 95%N -> strip_underscores s = s.
Proof.
  intros Hh Hl. unfold strip_underscores, rstrip_underscores.
  rewrite (lstrip_id s Hh), lstrip_id, reverse_involutive; [done|].
  by rewrite head_reverse.
Qed.

Lemma filter_kept_Forall (name : pystr) :
  Forall (fun c => kept isalnum c = true) (List.filter (kept isalnum) name).
Proof.
  induction name as [|c name IH]; simpl; [constructor|].
  destruct (kept isalnum c) eqn:E; [by constructor|done].
Qed.

Lemma filter_sublist (name : pystr) :
  List.filter (kept isalnum) name `sublist_of` name.
Proof.
  induction name as [|c name IH]; simpl; [done|].
  destruct (kept isalnum c); [by apply sublist_skip|by apply sublist_cons].
Qed.

Lemma filter_kept_id (name : pystr) :
  Forall (fun c => kept isalnum c = true) name ->
  List.filter (kept isalnum) name = name.
Proof.
  induction 1 as [|c name Hc _ IH]; simpl; [done|]. by rewrite Hc, IH.
Qed.

Lemma safe_filename_shape (name : pystr) :
  Forall (fun c => kept isalnum c = true) (safe_filename isalnum name) /\
  head (safe_filename isalnum name) <> Some 95%N /\
  last (safe_filename isalnum name) <> Some 95%N /\
  safe_filename isalnum name `sublist_of` name.
Proof.
  unfold safe_filename.
  destruct (strip_spec (List.filter (kept isalnum) name)) as (k1 & k2 & Hs & Hh & Hl).
  pose proof (filter_kept_Forall name) as Hall.
  pose proof (filter_sublist name) as Hsub.
  rewrite Hs in Hall, Hsub.
  apply Forall_app in Hall as [_ Hall]. apply Forall_app in Hall as [Hall _].
  split; [done|]. split; [done|]. split; [done|].
  etrans; [|exact Hsub]. apply sublist_inserts_l, sublist_inserts_r. done.
Qed.

Lemma safe_filename_fixed (name : pystr) :
  Forall (fun c => kept isalnum c = true) name ->
  head name <> Some 95%N -> last name <> Some 95%N ->
  safe_filename isalnum name = name.
Proof.
  intros Hall Hh Hl. unfold safe_filename.
  rewrite filter_kept_id by done. by apply strip_id.
Qed.

(** X14.  [safe_filename] keeps, in their order, characters of its
    argument and nothing else; every character it returns is
    alphanumeric or one of [.], [_], [-]; and the result neither begins
    nor ends with an underscore. *)
Theorem safe_filename_keeps_only_safe_characters (name : pystr) :
  safe_filename isalnum name `sublist_of` name /\
  (forall c, c ∈ safe_filename isalnum name ->
             isalnum c = true \/ c = 46%N \/ c = 95%N \/ c = 45%N) /\
  head (safe_filename isalnum name) <> Some 95%N /\
  last (safe_filename isalnum name) <> Some 95%N.
Proof.
  destruct (safe_filename_shape name) as (Hall & Hh & Hl & Hsub).
  split; [done|]. split; [|done].
  intros c Hc. rewrite Forall_forall in Hall. specialize (Hall c Hc).
  unfold kept, in_dot_underscore_dash in Hall.
  apply orb_true_iff in Hall as [Ha | Hd]; [by left|right].
  apply orb_true_iff in Hd as [Hd | Hd];
    [apply orb_true_iff in Hd as [Hd | Hd]|]; apply N.eqb_eq in Hd; auto.
Qed.

(** X15.  [safe_filename] changes nothing in a name made of
    alphanumeric characters, dots, underscores and dashes that neither
    begins nor ends with an underscore, so applying it twice is the same
    as applying it once; a name made of dots only comes back as it is. *)
Theorem safe_filename_is_idempotent (name : pystr) :
  safe_filename isalnum (safe_filename isalnum name) = safe_filename isalnum name /\
  (Forall (fun c => isalnum c = true \/ c = 46%N \/ c = 95%N \/ c = 45%N) name ->
   head name <> Some 95%N -> last name <> Some 95%N ->
   safe_filename isalnum name = name) /\
  (forall n, safe_filename isalnum (replicate n 46%N) = replicate n 46%N).
Proof.
  split; [|split].
  - destruct (safe_filename_shape name) as (Hall & Hh & Hl & _).
    by apply safe_filename_fixed.
  - intros Hall Hh Hl. apply safe_filename_fixed; [|done|done].
    eapply Forall_impl; [exact Hall|]. simpl. intros c Hc.
    unfold kept, in_dot_underscore_dash.
    destruct Hc as [-> | [-> | [-> | ->]]]; [done|..]; by rewrite orb_true_r.
  - intros n. apply safe_filename_fixed.
    + apply Forall_replicate. unfold kept. by rewrite orb_true_r.
    + by destruct n.
    + destruct n as [|n]; [done|].
      rewrite replicate_S_end, last_snoc. congruence.
Qed.

End SafeFilenameFacts.

Section UploadFacts.

Import App.

Context `{PyFloat}.

Lemma ALLOWED_split (suffix : string) :
  suffix ∈ ALLOWED <-> suffix ∈ CAD_EXTS \/ suffix ∈ MESH_EXTS.
Proof.
  unfold ALLOWED, CAD_EXTS, MESH_EXTS. rewrite !elem_of_cons, !elem_of_nil.
  tauto.
Qed.

(** Without an observer a conversion hands out no event. *)
Lemma convert_silent round_decimals fuel env w :
  events (convert_step_to_glb round_decimals fuel env None w).2 = events w.
Proof.
  change (@None Callable) with (progress_cb_of None).
  rewrite convert_step_to_glb_eq.
  destruct (negb _); [done|].
  destruct (import_error env); [done|].
  rewrite convert_body_eq. cbv zeta.
  destruct (ReadFile env) as [e|status]; [done|].
  destruct (negb _); [done|].
  destruct (TransferRoots env); [done|].
  destruct (mesh_outcome env); [done|].
  destruct (_ =? 0)%Z; [done|].
  pose proof (face_loop_silent round_decimals fuel (past_end env)
                (count_faces (shape env) 0) (Explorer_init (shape env))
                initial_locals (world_before_walk (@None Observer) w)) as Hs.
  change (@None Callable) with (progress_cb_of None) in Hs.
  fold (face_walk round_decimals fuel env (@None Observer) w) in Hs.
  destruct (face_walk _ _ _ _ _) as [[st|[e| | |]|] w5]; cbn [snd] in Hs; [|done..].
  destruct (_ || _); [done|].
  by destruct (export_glb _ _ _).
Qed.

(** X16.  [upload] answers 400, without converting anything,
    exactly when the suffix is neither a CAD extension nor a mesh
    extension; a file with a mesh extension is accepted and handed to the
    STEP converter like a STEP file. *)
Theorem upload_rejects_other_suffixes suffix uid converter_import fuel env w :
  (~ (suffix ∈ CAD_EXTS \/ suffix ∈ MESH_EXTS) ->
   upload suffix uid converter_import fuel env w =
   (Return (HTTPException 400
              ("Extension " +:+ suffix +:+ " not allowed. Only .step/.stp")), w)) /\
  (suffix ∈ CAD_EXTS \/ suffix ∈ MESH_EXTS ->
   (forall detail,
      (upload suffix uid converter_import fuel env w).1
      <> Return (HTTPException 400 detail)) /\
   (converter_import = None ->
    (upload suffix uid converter_import fuel env w).2 =
    (convert_step_to_glb DEFAULT_ROUND_DECIMALS fuel env None w).2)).
Proof.
  unfold upload. split.
  - intros Hn. rewrite <- ALLOWED_split in Hn. by rewrite bool_decide_eq_false_2.
  - intros Hy. rewrite <- ALLOWED_split in Hy. rewrite bool_decide_eq_true_2 by done.
    cbn [negb]. split.
    + intros detail. destruct converter_import as [e|]; [done|].
      unfold mbind, M_bind, bind.
      destruct (convert_step_to_glb _ _ _ _ _) as [[[[] msg]|e|] w']; done.
    + intros ->. unfold mbind, M_bind, bind.
      destruct (convert_step_to_glb _ _ _ _ _) as [[[[] msg]|e|] w']; done.
Qed.

(** X17.  For an accepted upload that starts with no output file:
    the answer is the JSON body exactly when the conversion succeeded, the
    two links then name [uid.glb], the file has been written and the
    message is the converter's; the answer is 500 with the converter's
    failure message, and no file, exactly when the conversion failed; the
    conversion lets no exception into the handler, and no progress event
    is ever handed out. *)
Theorem upload_answers_with_links_iff_written suffix uid fuel env w :
  suffix ∈ ALLOWED ->
  written w = None ->
  let r := upload suffix uid None fuel env w in
  events r.2 = events w /\
  (forall v d m,
      r.1 = Return (JSONResponse v d m) ->
      v = "/view/" +:+ uid +:+ ".glb" /\ d = "/outputs/" +:+ uid +:+ ".glb" /\
      is_Some (written r.2) /\
      (convert_step_to_glb DEFAULT_ROUND_DECIMALS fuel env None w).1 =
        Return (true, m)) /\
  (forall c d,
      r.1 = Return (HTTPException c d) ->
      c = 500%Z /\ written r.2 = None /\
      (convert_step_to_glb DEFAULT_ROUND_DECIMALS fuel env None w).1 =
        Return (false, d)) /\
  (forall m,
      (convert_step_to_glb DEFAULT_ROUND_DECIMALS fuel env None w).1 =
        Return (true, m) ->
      r.1 = Return (JSONResponse ("/view/" +:+ uid +:+ ".glb")
                      ("/outputs/" +:+ uid +:+ ".glb") m)) /\
  (forall d,
      (convert_step_to_glb DEFAULT_ROUND_DECIMALS fuel env None w).1 =
        Return (false, d) ->
      r.1 = Return (HTTPException 500 d)) /\
  (forall e, r.1 <> Raise e).
Proof.
  intros Hs Hw. cbv zeta. unfold upload.
  rewrite bool_decide_eq_true_2 by done. cbn [negb].
  unfold mbind, M_bind, bind.
  pose proof (convert_silent DEFAULT_ROUND_DECIMALS fuel env w) as Hev.
  destruct (convert_outcome DEFAULT_ROUND_DECIMALS fuel env None w)
    as [(msg & m & rest & w0 & Hr & Hw0 & _)
       |[(w0 & Hr & Hw0 & _) | (st & w5 & _ & _ & _ & Hr)]];
    cbv zeta in Hr; change (progress_cb_of None) with (@None Callable) in Hr;
    rewrite Hr in *; cbn [fst snd negb mret M_ret ret] in *.
  - split; [done|]. split; [done|]. split; [|split; [done|split; [|done]]].
    + intros c d [= <- <-]. split; [done|]. split; [|done].
      cbn [record_event]. by rewrite Hw0.
    + by intros d [= <-].
  - split; [done|]. by repeat split.
  - split; [done|]. split; [|split; [done|split; [|by split]]].
    + intros v d m [= <- <- <-]. split; [done|]. split; [done|].
      split; [|done]. cbn [record_event written]. by eexists.
    + by intros m [= <-].
Qed.

End UploadFacts.

(** * Runs over concrete shapes *)

Import Shapes.

Lemma no_faces_found_witness :
  run 0 (env_of PastEndRaises []) (Some quiet) =
  (Return (false, "No faces found in STEP file."),
   {| events :=
        [checkpoint 1 "starting" "Starting conversion";
         checkpoint 5 "loaded" "STEP file loaded";
         checkpoint 8 "meshing" "Starting tessellation";
         checkpoint 12 "meshed" "Tessellation complete";
         checkpoint 0 "error" "No faces found in STEP"];
      written := None |}).
Proof.
  apply (no_faces_found_fails_before_mesh_work DEFAULT_ROUND_DECIMALS 0
           (env_of PastEndRaises []) (Some quiet)).
  - repeat split; reflexivity.
  - reflexivity.
Defined.

Lemma empty_mesh_witness :
  exists st w5,
    face_walk DEFAULT_ROUND_DECIMALS 1 (env_of PastEndRaises [loose_face])
      (Some quiet) empty_world = (Return st, w5) /\
    faces st = [] /\
    (run 1 (env_of PastEndRaises [loose_face]) (Some quiet) =
       (Return (false, "No mesh extracted from STEP file."),
        record_event (Some quiet)
          (checkpoint 0 "error" "No mesh extracted from STEP file.") w5) /\
     written (run 1 (env_of PastEndRaises [loose_face]) (Some quiet)).2 = None /\
     "No mesh extracted from STEP file." <> "No faces found in STEP file.").
Proof.
  eexists _, _. split; [vm_compute; reflexivity|]. split; [reflexivity|].
  eapply (empty_mesh_fails_without_export DEFAULT_ROUND_DECIMALS 1
            (env_of PastEndRaises [loose_face]) (Some quiet) empty_world).
  - repeat split; reflexivity.
  - vm_compute. discriminate.
  - vm_compute. reflexivity.
  - right. reflexivity.
Defined.

Lemma indices_valid_witness :
  mesh_valid ([[0; 0; 0]; [1; 0; 0]; [1; 1; 0]; [0; 1; 0]]%Z,
              [[0; 1; 2]; [0; 2; 3]]).
Proof.
  apply (proj2 (proj2 (proj2 (proj2 (proj2
           (indices_are_valid_throughout DEFAULT_ROUND_DECIMALS)))))
           1 (env_of PastEndRaises [square_face]) (Some quiet)).
  vm_compute. reflexivity.
Defined.

Lemma rounded_keys_witness :
  exists p, [1; 1; 0]%Z = [round (Pnt_X p) DEFAULT_ROUND_DECIMALS;
                          round (Pnt_Y p) DEFAULT_ROUND_DECIMALS;
                          round (Pnt_Z p) DEFAULT_ROUND_DECIMALS].
Proof.
  apply (proj2 (vertices_are_rounded_keys DEFAULT_ROUND_DECIMALS)
           1 (env_of PastEndRaises [square_face]) (Some quiet)
           [[0; 0; 0]; [1; 0; 0]; [1; 1; 0]; [0; 1; 0]]%Z
           [[0; 1; 2]; [0; 2; 3]]).
  - vm_compute. reflexivity.
  - do 2 apply list_elem_of_further. apply list_elem_of_here.
Defined.

(** C1.  A shape of two faces, the first without triangulation, the
    second a square: the enumeration counts 2, the processing walk visits
    one face and ends, the square contributes nothing, and the conversion
    fails for want of a mesh.  The second [exp.Next()] of the branch for a
    missing triangulation steps over the square. *)
Theorem bare_face_hides_the_next_face :
  count_faces [bare_face; square_face] 0 = 2%Z /\
  every_past_end (fun pe =>
    exists st w,
      face_walk DEFAULT_ROUND_DECIMALS 2 (env_of pe [bare_face; square_face])
        (Some quiet) empty_world = (Return st, w) /\
      face_processed st = 1%Z /\ vertices st = [] /\ faces st = [] /\
      (run 2 (env_of pe [bare_face; square_face]) (Some quiet)).1 =
        Return (false, "No mesh extracted from STEP file.")).
Proof.
  split; [reflexivity|].
  repeat split; eexists _, _;
    (split; [vm_compute; reflexivity|]); repeat split; reflexivity.
Qed.

(** C2.  Three faces, the middle one without triangulation: the cadence
    is one face, yet the only processing update is the one after the
    first face (38 percent); nothing is reported at the counts 2 and 3,
    no processing update carries 90 percent, and the conversion goes on to
    export and succeeds. *)
Theorem bare_face_drops_the_final_update :
  update_every 3 = 1%Z /\
  update_due 2 3 = true /\ update_due 3 3 = true /\
  every_past_end (fun pe =>
    run 3 (env_of pe [square_face; bare_face; square_face]) (Some quiet) =
    (Return (true, "Converted: faces=3, triangles=2, verts=4"),
     {| events :=
          [checkpoint 1 "starting" "Starting conversion";
           checkpoint 5 "loaded" "STEP file loaded";
           checkpoint 8 "meshing" "Starting tessellation";
           checkpoint 12 "meshed" "Tessellation complete";
           checkpoint 38 "processing" "Processed 1/3 faces";
           checkpoint 90 "exporting" "Preparing to export GLB";
           checkpoint 100 "finished" "Converted: faces=3, triangles=2, verts=4"];
        written :=
          Some ([[0; 0; 0]; [1; 0; 0]; [1; 1; 0]; [0; 1; 0]]%Z,
                [[0; 1; 2]; [0; 2; 3]]) |})).
Proof.
  split; [reflexivity|]. split; [reflexivity|]. split; [reflexivity|].
  repeat split; vm_compute; reflexivity.
Qed.

(** C3.  A face whose location moves the first node and raises on the
    second, with a triangle that uses the first node twice: the triangle
    pass falls back to the untransformed corners, finds the key of the
    first node missing for both corners, and inserts it twice.  The entry
    made for the first corner (index 2) is overwritten by the one for the
    second (index 3), the vertex is stored twice, and the two corners,
    which are one point, get two indices. *)
Theorem stale_lookup_inserts_a_key_twice :
  let st := fold_left (insert_node DEFAULT_ROUND_DECIMALS partial_move)
              (Nodes sliver) initial_locals in
  let k : SpatialKey := (0, 0, 0)%Z in
  corner_keys DEFAULT_ROUND_DECIMALS sliver partial_move (1, 1, 2) =
    inr (k, k, (1, 0, 0)%Z) /\
  vertex_map st !! k = None /\
  vertex_map (append_vertex st k) !! k = Some 2 /\
  vertex_map (emit_triangle st (k, k, (1, 0, 0)%Z)) !! k = Some 3 /\
  written (run 1 (env_of PastEndRaises [sliver_face]) (Some quiet)).2 =
    Some ([[5; 0; 0]; [1; 0; 0]; [0; 0; 0]; [0; 0; 0]]%Z, [[2; 3; 1]]).
Proof.
  cbv zeta. repeat split; vm_compute; reflexivity.
Qed.

Lemma processing_percent_witness :
  exists fps : list Z,
    events (face_loop DEFAULT_ROUND_DECIMALS 1 PastEndRaises (Some quiet) 1
              (Explorer_init [square_face]) initial_locals empty_world).2 =
      map (fun fp => checkpoint (pct fp 1) "processing" (processing_message fp 1)) fps /\
    StronglySorted Z.le (map (fun fp => pct fp 1) fps).
Proof.
  destruct (processing_percent_is_the_binary64_value DEFAULT_ROUND_DECIMALS
              1 PastEndRaises quiet 1 (Explorer_init [square_face])
              initial_locals empty_world) as (fps & He & _ & Hs & _).
  - lia.
  - simpl. lia.
  - exists fps. split; [exact He|exact Hs].
Defined.

(** The claim of C5 as the design document states it fails on a shape
    of 26 faces: the update after the fifteenth face carries 56, the
    formula over the rationals gives 57. *)
Lemma percent_of_15_of_26_is_56 :
  ~ reports_spec_pct 26
      (events (run 26 (env_of PastEndRaises (replicate 26 square_face))
                 (Some quiet)).2).
Proof.
  intros Hc. specialize (Hc 15%Z 56%Z).
  assert (Hin : checkpoint 56 "processing" (processing_message 15 26) ∈
                events (run 26 (env_of PastEndRaises (replicate 26 square_face))
                          (Some quiet)).2).
  { apply list_elem_of_lookup. exists 18. vm_compute. reflexivity. }
  specialize (Hc Hin). vm_compute in Hc. discriminate.
Qed.

Lemma progress_witness :
  last (events (run 1 (env_of PastEndRaises [square_face]) (Some quiet)).2) =
  Some (checkpoint 100 "finished" "Converted: faces=1, triangles=2, verts=4").
Proof.
  apply (proj1 (proj2 (proj2
           (progress_is_monotone_up_to_the_error DEFAULT_ROUND_DECIMALS 1
              (env_of PastEndRaises [square_face]) quiet)))).
  vm_compute. reflexivity.
Defined.

(** The claim of C6 as the design document states it fails on a shape
    without faces: the observer receives the percents 1, 5, 8, 12 and
    then the 0 of the error checkpoint. *)
Lemma error_percent_breaks_monotonicity :
  reported_percents
    (events (run 0 (env_of PastEndRaises []) (Some quiet)).2) =
    [1; 5; 8; 12; 0]%Z /\
  ~ StronglySorted Z.le
      (reported_percents
         (events (run 0 (env_of PastEndRaises []) (Some quiet)).2)).
Proof.
  split; [reflexivity|].
  intros Hs. apply StronglySorted_cons in Hs as [Hall _].
  rewrite Forall_forall in Hall. specialize (Hall 0%Z).
  assert (Hin : 0%Z ∈ [5; 8; 12; 0]%Z) by set_solver.
  specialize (Hall Hin). lia.
Qed.

(** * Runs for the further properties *)

(** The claim of C9 as the design document states it fails for a callable
    that raises [KeyboardInterrupt]: the first checkpoint lets the
    exception out, the conversion ends with it, and the square that an
    observer sees converted is not written. *)
Lemma keyboard_interrupt_aborts_the_conversion :
  _safe_call_progress (Some interrupted) (Some 1%Z) (Some "starting")
      (Some "Starting conversion") empty_world =
    (Raise KeyboardInterrupt,
     {| events := [checkpoint 1 "starting" "Starting conversion"];
        written := None |}) /\
  run 1 (env_of PastEndRaises [square_face]) (Some interrupted) =
    (Raise KeyboardInterrupt,
     {| events := [checkpoint 1 "starting" "Starting conversion"];
        written := None |}) /\
  (run 1 (env_of PastEndRaises [square_face]) (Some quiet)).1 =
    Return (true, "Converted: faces=1, triangles=2, verts=4") /\
  (run 1 (env_of PastEndRaises [square_face]) (Some interrupted)).1 <>
  (run 1 (env_of PastEndRaises [square_face]) (Some quiet)).1.
Proof.
  split; [reflexivity|]. split; [reflexivity|]. split; [reflexivity|].
  vm_compute. discriminate.
Qed.

(** A node with a NaN coordinate is never found again: the node pass
    stores it, and each corner that uses it stores it once more, so three
    nodes and two triangles leave five vertices. *)
Lemma nan_node_is_stored_per_corner :
  exists st',
    @process_triangulation nan_floats DEFAULT_ROUND_DECIMALS nan_triangulation
      (fun p => Some p) (@initial_locals nan_floats) = inr st' /\
    length (@vertices nan_floats st') = 5 /\
    @faces nan_floats st' = [[3; 1; 2]; [4; 2; 1]].
Proof. eexists. split; [vm_compute; reflexivity|]. by split. Qed.





Lemma error_checkpoint_witness :
  exists m rest,
    last (events (run 0 (env_of PastEndRaises []) (Some quiet)).2) =
      Some (checkpoint 0 "error" m) /\
    "No faces found in STEP file." = m +:+ rest.
Proof.
  apply (error_checkpoint_starts_the_message DEFAULT_ROUND_DECIMALS 0
           (env_of PastEndRaises []) quiet empty_world).
  reflexivity.
Defined.

Lemma success_message_witness :
  exists vs fs,
    written (run 1 (env_of PastEndRaises [square_face]) (Some quiet)).2 =
      Some (vs, fs) /\
    "Converted: faces=1, triangles=2, verts=4" =
      "Converted: faces=" +:+ pretty 1%Z
        +:+ ", triangles=" +:+ pretty (Z.of_nat (length fs))
        +:+ ", verts=" +:+ pretty (length vs).
Proof.
  apply (success_message_counts DEFAULT_ROUND_DECIMALS 1
           (env_of PastEndRaises [square_face]) (Some quiet) empty_world).
  - reflexivity.
  - vm_compute. reflexivity.
Defined.

Lemma walk_fold_witness :
  (face_walk DEFAULT_ROUND_DECIMALS 2 (env_of PastEndRaises [bare_face; square_face])
     (Some quiet) empty_world).1 =
  match process_faces DEFAULT_ROUND_DECIMALS [bare_face] initial_locals with
  | inr st => Return st
  | inl e => Raise e
  end.
Proof.
  apply (proj1 (walk_folds_over_visited_faces DEFAULT_ROUND_DECIMALS 2
                  (env_of PastEndRaises [bare_face; square_face]) (Some quiet)
                  empty_world (le_n 2) (or_introl eq_refl))).
Defined.

Lemma conversion_ends_witness :
  (exists ok msg,
      (run 2 (env_of PastEndRaises [bare_face; square_face]) (Some interrupted)).1 =
        Return (ok, msg)) \/
  (exists b,
      (run 2 (env_of PastEndRaises [bare_face; square_face]) (Some interrupted)).1 =
        Raise b).
Proof.
  apply (conversion_ends DEFAULT_ROUND_DECIMALS 2
           (env_of PastEndRaises [bare_face; square_face]) (Some interrupted)
           empty_world).
  - simpl. lia.
  - left. reflexivity.
Defined.

Lemma rewinding_walk_witness :
  runs_off [bare_face] = true /\
  (run 7 (env_of PastEndRewinds [bare_face]) (Some quiet)).1 <>
    Return (true, "Converted: faces=1, triangles=0, verts=0").
Proof.
  split; [reflexivity|].
  apply (proj2 (rewinding_walk_never_returns DEFAULT_ROUND_DECIMALS 7
                  (env_of PastEndRewinds [bare_face]) (Some quiet) empty_world
                  eq_refl eq_refl)).
Defined.



Lemma append_only_witness :
  exists st' w',
    face_loop DEFAULT_ROUND_DECIMALS 1 PastEndRaises (Some quiet) 2
      (Explorer_init [square_face])
      (fold_left (insert_node DEFAULT_ROUND_DECIMALS identity) [pnt 7 7 7]
         initial_locals) empty_world = (Return st', w') /\
    [[7; 7; 7]%Z] `prefix_of` vertices st' /\
    vertices st' !! 0 = Some [7; 7; 7]%Z.
Proof.
  destruct (face_loop DEFAULT_ROUND_DECIMALS 1 PastEndRaises (Some quiet) 2
              (Explorer_init [square_face])
              (fold_left (insert_node DEFAULT_ROUND_DECIMALS identity) [pnt 7 7 7]
                 initial_locals) empty_world) as [[st'|e|] w'] eqn:E.
  - destruct (containers_are_append_only DEFAULT_ROUND_DECIMALS _ _ _ _ _ _ _ _ _ E)
      as (Hv & _ & Hi).
    exists st', w'. split; [done|]. split; [exact Hv|]. by apply Hi.
  - vm_compute in E. discriminate.
  - vm_compute in E. discriminate.
Defined.

Lemma full_walk_witness :
  exists st w5,
    face_walk DEFAULT_ROUND_DECIMALS 2
      (env_of PastEndRaises [square_face; square_face]) (Some quiet) empty_world =
      (Return st, w5) /\
    face_processed st = 2%Z /\
    last (events w5) = Some (checkpoint 90 "processing" (processing_message 2 2)).
Proof.
  destruct (face_walk DEFAULT_ROUND_DECIMALS 2
              (env_of PastEndRaises [square_face; square_face]) (Some quiet)
              empty_world) as [[st|e|] w5] eqn:E.
  - destruct (triangulated_shape_is_walked_in_full DEFAULT_ROUND_DECIMALS 2
                (env_of PastEndRaises [square_face; square_face]) quiet st w5)
      as (Hfp & _ & Hl).
    + apply Forall_cons_2; [by eexists|].
      apply Forall_cons_2; [by eexists|apply Forall_nil_2].
    + done.
    + exact E.
    + by exists st, w5.
  - vm_compute in E. discriminate.
  - vm_compute in E. discriminate.
Defined.

Lemma cadence_witness :
  update_every 250 = 3%Z /\ update_every 100 = 1%Z.
Proof.
  split.
  - apply (proj1 (update_every_is_the_ceiling 250 eq_refl
                    ltac:(vm_compute; discriminate))).
  - apply (proj2 (update_every_is_the_ceiling 100 eq_refl
                    ltac:(vm_compute; discriminate))).
    lia.
Defined.

Lemma percent_range_witness :
  (12 <= pct 15 26)%Z /\ (pct 15 26 <= 90)%Z.
Proof.
  destruct (processing_percent_stays_in_range 15 26) as (Hl & Hu & _);
    [lia|lia|lia|]. by split.
Defined.

Lemma upload_witness :
  exists m,
    (App.upload ".step" "0f3a" None 1 (env_of PastEndRaises [square_face])
       empty_world).1 =
      Return (App.JSONResponse "/view/0f3a.glb" "/outputs/0f3a.glb" m) /\
    is_Some (written (App.upload ".step" "0f3a" None 1
                        (env_of PastEndRaises [square_face]) empty_world).2).
Proof.
  destruct (upload_answers_with_links_iff_written ".step" "0f3a" 1
              (env_of PastEndRaises [square_face]) empty_world)
    as (_ & Hj & _).
  - apply list_elem_of_here.
  - reflexivity.
  - eexists. split; [vm_compute; reflexivity|].
    eapply Hj. vm_compute. reflexivity.
Defined.
